(** * WasmFS node model and the SyncToAsync bridge

    A shallow embedding of [system/lib/wasmfs/file.h] (the [File],
    [DataFile] and [Directory] classes with their locked handles) and of
    the [emscripten::SyncToAsync] helper, with the properties the design
    document states about them.

    Conventions.
    - A [std::shared_ptr<File>] is a nullable address: [ptr := option Z].
      The heap maps the addresses of the live [File] objects to their
      fields; a [std::weak_ptr] resolves ([lock()]) to its target when the
      target is live and to null otherwise.
    - [std::map<std::string, std::shared_ptr<File>>] is a [gmap string ptr];
      iteration goes through [ordered], the key-ordered listing.
    - A failed [assert] and a dereferenced null pointer end the run; they
      are the two error results of the monad [M].
    - The [shared_ptr]s that own a node are not counted, and no node is
      ever taken out of the heap: a node whose last owner an operation
      drops (the child that a store into [entries] displaces, or that an
      erase removes) stays in the heap of the model. What is proved of
      the state after an operation is therefore to be read of the nodes
      that are still alive there; no theorem says of a node that it
      survives because the heap of the model still has it. The run of an
      operation itself is followed as if the nodes it goes on to use
      stayed alive to its end. *)

From stdpp Require Import gmap strings list sorting.
From Stdlib Require Import ZArith Lia Ascii.

Local Open Scope Z_scope.
#[local] Set Warnings "-clear-no-such-hyp".

(** ** Data model *)

Definition ptr : Type := option Z.

Inductive FileKind := DataFileKind | DirectoryKind | SymlinkKind.

#[global] Instance FileKind_eq_dec : EqDecision FileKind.
Proof. solve_decision. Defined.

(** The part of a node that its class adds to [File]: a [DataFile] keeps
    its bytes in the backend, which answers [getSize]; a [Directory] owns
    the entry map. *)
Inductive Payload :=
| DataFilePayload (backendSize : Z)
| DirectoryPayload (entries : gmap string ptr).

Record File := mkFile {
  mode : Z;
  ctime : Z;
  mtime : Z;
  atime : Z;
  parent : ptr;            (* std::weak_ptr<File> *)
  backend : Z;             (* backend_t, 0 is NullBackend *)
  mutex : nat;             (* recursion depth of the std::recursive_mutex *)
  payload : Payload
}.

(** [kind] is fixed by the constructor of the class:
    [DataFile(mode, backend) : File(File::DataFileKind, ...)] and
    [Directory(mode, backend) : File(File::DirectoryKind, ...)]. *)
Definition kind (f : File) : FileKind :=
  match payload f with
  | DataFilePayload _ => DataFileKind
  | DirectoryPayload _ => DirectoryKind
  end.

Definition NullBackend : Z := 0.

Definition DataFile_new (mode backend size : Z) : File :=
  mkFile mode 0 0 0 None backend 0%nat (DataFilePayload size).

Definition Directory_new (mode backend : Z) : File :=
  mkFile mode 0 0 0 None backend 0%nat (DirectoryPayload ∅).

(** The [entries] member of a [Directory]. *)
Definition entries_of (f : File) : gmap string ptr :=
  match payload f with
  | DirectoryPayload es => es
  | DataFilePayload _ => ∅
  end.

Definition with_parent (p : ptr) (f : File) : File :=
  mkFile (mode f) (ctime f) (mtime f) (atime f) p (backend f) (mutex f) (payload f).

Definition with_mutex (n : nat) (f : File) : File :=
  mkFile (mode f) (ctime f) (mtime f) (atime f) (parent f) (backend f) n (payload f).

Definition with_payload (pl : Payload) (f : File) : File :=
  mkFile (mode f) (ctime f) (mtime f) (atime f) (parent f) (backend f) (mutex f) pl.

(** What a handle operation did, in program order. *)
Inductive event :=
| ELock (a : Z)
| EUnlock (a : Z)
| EStoreEntry (d : Z) (name : string) (child : ptr)
| EEraseEntry (d : Z) (name : string)
| EAssertNoParent (a : Z)
| ESetParent (a : Z) (p : ptr).

Record FS := mkFS {
  heap : gmap Z File;
  trace : list event
}.

(** ** The monad of handle operations *)

Inductive result (A : Type) :=
| Ok (a : A) (s : FS)
| AssertFail
| NullDeref.
Arguments Ok {A} a s.
Arguments AssertFail {A}.
Arguments NullDeref {A}.

Definition M (A : Type) : Type := FS → result A.

#[global] Instance M_ret : MRet M := λ A a s, Ok a s.
#[global] Instance M_bind : MBind M := λ A B f m s,
  match m s with
  | Ok a s' => f a s'
  | AssertFail => AssertFail
  | NullDeref => NullDeref
  end.

Definition assert (b : bool) : M unit :=
  λ s, if b then Ok () s else AssertFail.

Definition get_heap : M (gmap Z File) :=
  λ s, Ok (heap s) s.

Definition log (e : event) : M unit :=
  λ s, Ok () (mkFS (heap s) (trace s ++ [e])).

(** [*p] for a [shared_ptr]: the address of the live object it owns. *)
Definition deref (p : ptr) : M Z :=
  λ s, match p with
       | Some a => if decide (is_Some (heap s !! a)) then Ok a s else NullDeref
       | None => NullDeref
       end.

Definition load (a : Z) : M File :=
  λ s, match heap s !! a with
       | Some f => Ok f s
       | None => NullDeref
       end.

Definition store (a : Z) (f : File) : M unit :=
  λ s, Ok () (mkFS (<[a := f]> (heap s)) (trace s)).

(** [Handle(file)] locks [file->mutex]; the destructor of the handle
    unlocks it. One thread runs the operation, so the recursive mutex is
    its recursion depth. *)
Definition lock (a : Z) : M unit :=
  f ← load a;
  store a (with_mutex (S (mutex f)) f);;
  log (ELock a).

Definition unlock (a : Z) : M unit :=
  f ← load a;
  store a (with_mutex (pred (mutex f)) f);;
  log (EUnlock a).

(** [File::locked()]. *)
Definition locked (p : ptr) : M Z :=
  a ← deref p;
  lock a;;
  mret a.

(** [File::Handle::getParent]: [file->parent.lock()]. *)
Definition resolve (h : gmap Z File) (w : ptr) : ptr :=
  match w with
  | Some a => if decide (is_Some (h !! a)) then Some a else None
  | None => None
  end.

Definition getParent (a : Z) : M ptr :=
  f ← load a;
  h ← get_heap;
  mret (resolve h (parent f)).

(** [File::Handle::setParent]. *)
Definition setParent (a : Z) (p : ptr) : M unit :=
  f ← load a;
  store a (with_parent p f);;
  log (ESetParent a p).

(** [Directory::Handle::getDir]: [file->cast<Directory>()], which asserts
    the kind, followed by the read of [entries]. *)
Definition getDir (d : Z) : M (gmap string ptr) :=
  f ← load d;
  assert (bool_decide (kind f = DirectoryKind));;
  mret (entries_of f).

Definition setDirEntries (d : Z) (es : gmap string ptr) : M unit :=
  f ← load d;
  assert (bool_decide (kind f = DirectoryKind));;
  store d (with_payload (DirectoryPayload es) f).

(** ** Handle operations *)

(** [File::Handle::getSize] dispatches to the virtual [getSize]:
    [Directory::getSize] is [return 4096;], a data file asks its backend. *)
Definition File_getSize (f : File) : Z :=
  match payload f with
  | DirectoryPayload _ => 4096
  | DataFilePayload n => n
  end.

Definition getSize (a : Z) : M Z :=
  f ← load a;
  mret (File_getSize f).

(** [Directory::Handle::setEntry]. The store into [entries] lets go of
    the pointer the name was bound to; what becomes of the node it owned
    is not followed (see the conventions). *)
Definition setEntry (d : Z) (pathName : string) (inserted : ptr) : M unit :=
  c ← locked inserted;
  es ← getDir d;
  setDirEntries d (<[pathName := inserted]> es);;
  log (EStoreEntry d pathName inserted);;
  log (EAssertNoParent c);;
  p ← getParent c;
  assert (bool_decide (p = None));;
  setParent c (Some d);;
  unlock c.

(** [setEntry] cut at its assertion: the statements before it lock the
    child and store the entry, the ones from it on check the parent of the
    child, set it and, as the handle goes out of scope, unlock. *)
Definition setEntry_store (d : Z) (pathName : string) (inserted : ptr) : M Z :=
  c ← locked inserted;
  es ← getDir d;
  setDirEntries d (<[pathName := inserted]> es);;
  log (EStoreEntry d pathName inserted);;
  mret c.

Definition setEntry_link (d : Z) (c : Z) : M unit :=
  log (EAssertNoParent c);;
  p ← getParent c;
  assert (bool_decide (p = None));;
  setParent c (Some d);;
  unlock c.

(** The order in which an operation would check before it links: the
    assertion is met in the trace before any store of an entry or of a
    parent. *)
Fixpoint asserted_before_linking (tr : list event) : bool :=
  match tr with
  | [] => true
  | EAssertNoParent _ :: _ => true
  | EStoreEntry _ _ _ :: _ => false
  | ESetParent _ _ :: _ => false
  | _ :: tr => asserted_before_linking tr
  end.

(** [std::map::operator[]]: an absent key is first bound to a
    value-initialised (null) pointer. *)
Definition subscript (pathName : string) (es : gmap string ptr) : gmap string ptr :=
  match es !! pathName with
  | Some _ => es
  | None => <[pathName := None]> es
  end.

(** [Directory::Handle::unlinkEntry]. The erase lets go of the pointer
    to the child; what becomes of the child is not followed (see the
    conventions). *)
Definition unlinkEntry (d : Z) (pathName : string) : M unit :=
  es ← getDir d;
  setDirEntries d (subscript pathName es);;
  c ← locked (default None (subscript pathName es !! pathName));
  setParent c None;;
  es' ← getDir d;
  setDirEntries d (delete pathName es');;
  log (EEraseEntry d pathName);;
  unlock c.

(** The range-for over a [std::map] visits the pairs in key order. *)
Definition entry_le (x y : string * ptr) : Prop := (x.1 ≤ y.1)%string.

#[global] Instance entry_le_dec : RelDecision entry_le.
Proof. intros x y. unfold entry_le. apply _. Defined.

Definition ordered (es : gmap string ptr) : list (string * ptr) :=
  merge_sort entry_le (map_to_list es).

(** [Directory::Handle::getName]: the key of the first pair whose value is
    [target], the empty string when the loop runs to the end. *)
Definition first_named (target : ptr) (l : list (string * ptr)) : string :=
  match list_find (λ kv, kv.2 = target) l with
  | Some (_, kv) => kv.1
  | None => ""
  end.

Definition getName (d : Z) (target : ptr) : M string :=
  es ← getDir d;
  mret (first_named target (ordered es)).

(** [Directory::Handle::getNumEntries] and [getEntries]. *)
Definition getNumEntries (d : Z) : M Z :=
  es ← getDir d;
  mret (Z.of_nat (size es)).

Definition getEntries (d : Z) : M (list (string * ptr)) :=
  es ← getDir d;
  mret (ordered es).

(** ** Reading a directory out of a state *)

Definition is_dir (s : FS) (d : Z) : Prop :=
  ∃ f, heap s !! d = Some f ∧ kind f = DirectoryKind.

Definition live (s : FS) (a : Z) : Prop := is_Some (heap s !! a).

(** [d] holds, under the name [n], a strong reference to [c]. *)
Definition holds (s : FS) (d : Z) (n : string) (c : Z) : Prop :=
  ∃ f, heap s !! d = Some f ∧ kind f = DirectoryKind ∧ entries_of f !! n = Some (Some c).

Definition contains (s : FS) (d c : Z) : Prop := ∃ n, holds s d n c.

(** The parent of [c] as a handle on [c] reports it. *)
Definition parent_of (s : FS) (c : Z) : ptr :=
  match heap s !! c with
  | Some f => resolve (heap s) (parent f)
  | None => None
  end.

(** A caller's sequence of entry insertions and removals on directory
    handles. *)
Inductive dir_op :=
| OpSetEntry (d : Z) (pathName : string) (inserted : ptr)
| OpUnlinkEntry (d : Z) (pathName : string).

Definition run_op (o : dir_op) : M unit :=
  match o with
  | OpSetEntry d n c => setEntry d n c
  | OpUnlinkEntry d n => unlinkEntry d n
  end.

Fixpoint run_ops (os : list dir_op) : M unit :=
  match os with
  | [] => mret ()
  | o :: os => run_op o;; run_ops os
  end.

(** [File::getIno]: [(ino_t)this]. [this] is an address of [ptr_size]
    bytes and the result an unsigned integer of [ino_size] bytes; the
    method reads no field of the node. *)
Definition getIno (ino_size : Z) (this : Z) : M Z :=
  mret (this mod 2 ^ (8 * ino_size)).

(** An address that a pointer of [ptr_size] bytes can hold. *)
Definition addressable (ptr_size : Z) (a : Z) : Prop :=
  0 ≤ a < 2 ^ (8 * ptr_size).

(** ** The parent/entry invariant *)

(** I1: the parent of a live node resolves to a directory exactly when
    exactly one directory holds a strong reference to the node. *)
Definition I1 (s : FS) : Prop :=
  ∀ c, live s c →
    (parent_of s c ≠ None ↔ ∃ d, contains s d c ∧ ∀ d', contains s d' c → d' = d).

(** The form of I1 that the operations maintain: a node is held under at
    most one (directory, name) pair, and its parent is that directory. *)
Definition linked (s : FS) : Prop :=
  (∀ c d, live s c → (parent_of s c = Some d ↔ contains s d c)) ∧
  (∀ c d n n', holds s d n c → holds s d n' c → n = n').

(** Every stored entry is a non-null pointer to a live node. *)
Definition entries_live (s : FS) : Prop :=
  ∀ d f n p, heap s !! d = Some f → entries_of f !! n = Some p →
    ∃ c, p = Some c ∧ live s c.

(** The net effect of a completed [setEntry d n c] and of a completed
    [unlinkEntry d n] (with [n] bound to [c]) on the node at address [a]. *)
Definition link_file (d : Z) (n : string) (c : Z) (a : Z) (f : File) : File :=
  let f1 := if decide (a = d)
            then with_payload (DirectoryPayload (<[n := Some c]> (entries_of f))) f
            else f in
  if decide (a = c) then with_parent (Some d) f1 else f1.

Definition unlink_file (d : Z) (n : string) (c : Z) (a : Z) (f : File) : File :=
  let f1 := if decide (a = c) then with_parent None f else f in
  if decide (a = d)
  then with_payload (DirectoryPayload (delete n (entries_of f1))) f1
  else f1.

(** Sample states for the examples. *)
Definition sample_dir : File :=
  with_payload (DirectoryPayload {[ "a"%string := Some 2 ]}) (Directory_new 493 NullBackend).

Definition sample_fs : FS :=
  mkFS (<[1 := sample_dir]>
        (<[2 := with_parent (Some 1) (DataFile_new 420 NullBackend 5)]>
        (<[3 := DataFile_new 420 NullBackend 7]> ∅))) [].

Definition sample_ops : list dir_op :=
  [OpSetEntry 1 "b" (Some 3); OpUnlinkEntry 1 "a"; OpSetEntry 1 "c" (Some 2)].

Definition final_state {A} (r : result A) : FS :=
  match r with Ok _ s => s | _ => mkFS ∅ [] end.

(** Two heaps with the same nodes, each of the same kind. *)
Definition same_kinds (h h' : gmap Z File) : Prop :=
  ∀ a f, h !! a = Some f → ∃ f', h' !! a = Some f' ∧ kind f' = kind f.

Definition sample_aliases_dir : File :=
  with_payload (DirectoryPayload
                  (<["zeta"%string := Some 2]>
                  (<["alpha"%string := Some 2]>
                  (<["beta"%string := Some 3]> ∅)))) (Directory_new 493 NullBackend).

Definition sample_aliases : FS :=
  mkFS (<[1 := sample_aliases_dir]>
        (<[2 := with_parent (Some 1) (DataFile_new 420 NullBackend 5)]>
        (<[3 := with_parent (Some 1) (DataFile_new 420 NullBackend 7)]> ∅))) [].

(** ** Casts *)

(** [File::is<T>], [File::dynCast<T>] and [File::cast<T>]; the class [T]
    is given by its [T::expectedKind]. [dynCast] answers the null pointer
    for a node of another kind, [cast] asserts the kind. *)
Definition File_is (expectedKind : FileKind) (a : Z) : M bool :=
  f ← load a;
  mret (bool_decide (kind f = expectedKind)).

Definition dynCast (expectedKind : FileKind) (a : Z) : M ptr :=
  f ← load a;
  mret (if bool_decide (kind f = expectedKind) then Some a else None).

Definition cast (expectedKind : FileKind) (a : Z) : M Z :=
  f ← load a;
  assert (bool_decide (kind f = expectedKind));;
  mret a.

(** ** Locking among several threads

    [File::locked] and [File::maybeLocked] differ only when another
    thread owns the mutex, so here the [std::recursive_mutex] of one node
    is its owner together with the number of times the owner has locked
    it. *)
Module Locking.

Record rmutex := mkRMutex { owner : option nat; depth : nat }.

(** [try_lock()] by thread [t]: succeeds on a free mutex and on one that
    [t] owns already, fails without waiting otherwise. *)
Definition try_lock (t : nat) (m : rmutex) : bool * rmutex :=
  match owner m with
  | None => (true, mkRMutex (Some t) 1)
  | Some o =>
      if decide (o = t) then (true, mkRMutex (Some t) (S (depth m))) else (false, m)
  end.

(** [lock()] by thread [t]; [None] when the call has to wait. *)
Definition lock (t : nat) (m : rmutex) : option rmutex :=
  let '(ok, m') := try_lock t m in if ok then Some m' else None.

Definition unlock (m : rmutex) : rmutex :=
  match depth m with
  | S (S n) => mkRMutex (owner m) (S n)
  | _ => mkRMutex None 0
  end.

(** [File::locked()]: [Handle(shared_from_this())], whose
    [std::unique_lock] locks the mutex. *)
Definition locked (t : nat) (m : rmutex) : option rmutex := lock t m.

(** [File::maybeLocked()]. The probing [handle] is built with
    [std::defer_lock] and tries the lock; on success a second, locking
    handle is returned and the probing one, which owns its lock, unlocks
    as it goes out of scope; on failure nothing is returned and the
    probing handle owns nothing. The result is whether a handle came
    back, and the mutex afterwards. *)
Definition maybeLocked (t : nat) (m : rmutex) : option (bool * rmutex) :=
  let '(owns, m1) := try_lock t m in
  if owns then
    m2 ← lock t m1;
    Some (true, unlock m2)
  else Some (false, m1).

End Locking.

(** ** The footprint of an entry operation *)



(** ** Path resolution *)

(** The error codes the resolver reports to the syscall layer. *)
Inductive errno := EEXIST | ENOTDIR | EISDIR | ENOENT | EINVAL | EBADF.

#[global] Instance errno_eq_dec : EqDecision errno.
Proof. solve_decision. Defined.

Definition flush (cur : string) : list string :=
  match cur with
  | EmptyString => []
  | _ => [String.rev cur]
  end.

(** The '/'-delimited components of [s]; [cur] is the component being
    read, last character first. Empty components are dropped. *)
Fixpoint split_slash (cur : string) (s : string) : list string :=
  match s with
  | EmptyString => flush cur
  | String c s' =>
      if Ascii.eqb c "/"%char
      then flush cur ++ split_slash EmptyString s'
      else split_slash (String c cur) s'
  end.

(** Modelled from the spec: [splitPath] is declared in [file.h] and its
    body is not part of the sources at hand. "Return a vector of the
    '/'-delimited components of a path. The first element will be "/" iff
    the path is an absolute path"; separators are collapsed and the empty
    components of duplicate or trailing separators are dropped. *)
Definition splitPath (pathname : string) : list string :=
  match pathname with
  | String c _ =>
      (if Ascii.eqb c "/"%char then ["/"%string] else []) ++ split_slash EmptyString pathname
  | EmptyString => []
  end.

(** Modelled from the spec: [Directory::Handle::getEntry] is declared in
    [file.h] without a body; it looks the name up in the entry map and
    yields the null pointer for an absent name. *)
Definition getEntry (h : gmap Z File) (d : Z) (pathName : string) : ptr :=
  match h !! d with
  | Some f => default None (entries_of f !! pathName)
  | None => None
  end.

(** Modelled from the spec: the free function [getDir] of [file.h] (body
    not at hand), the walk over all components but the last. Each
    component is looked up in the current directory; an absent one is
    "no such entry", the forbidden ancestor is "invalid argument", and a
    node that is not a directory is "not a directory". *)
Fixpoint walkDirs (h : gmap Z File) (curr : Z) (parts : list string)
    (forbiddenAncestor : ptr) : errno + Z :=
  match parts with
  | [] => inr curr
  | name :: rest =>
      match getEntry h curr name with
      | None => inl ENOENT
      | Some child =>
          if decide (forbiddenAncestor = Some child) then inl EINVAL
          else match h !! child with
               | Some f =>
                   if decide (kind f = DirectoryKind)
                   then walkDirs h child rest forbiddenAncestor
                   else inl ENOTDIR
               | None => inl ENOENT
               end
      end
  end.

(** [struct ParsedPath]: the parent directory, when there is one, and
    the child, null when the last component is absent. *)
Record ParsedPath := mkParsedPath {
  parsed_parent : option Z;
  parsed_child : ptr
}.

(** Modelled from the spec: [getParsedPath] (body not at hand). An empty
    component list is "invalid argument"; a leading "/" starts the walk
    at the root and any other first component at the working directory;
    the path "/" alone yields the root as the child; an absent last
    component is a missing child, not an error. *)
Definition getParsedPath (h : gmap Z File) (root cwd : Z) (pathParts : list string)
    (forbiddenAncestor : ptr) : errno + ParsedPath :=
  match pathParts with
  | [] => inl EINVAL
  | first :: rest =>
      let start := if decide (first = "/"%string) then root else cwd in
      let rel := if decide (first = "/"%string) then rest else pathParts in
      match rel with
      | [] => inr (mkParsedPath None (Some root))
      | _ =>
          match walkDirs h start (removelast rel) forbiddenAncestor with
          | inl e => inl e
          | inr dir =>
              inr (mkParsedPath (Some dir) (getEntry h dir (List.last rel ""%string)))
          end
      end
  end.

(** Resolving a pathname: split it, then walk it. *)
Definition resolve_path (h : gmap Z File) (root cwd : Z) (pathname : string)
    (forbiddenAncestor : ptr) : errno + ParsedPath :=
  getParsedPath h root cwd (splitPath pathname) forbiddenAncestor.

(** The tree of the open/close test: [/dev/stdin] and [/dev/stdout]. *)
Definition test_heap : gmap Z File :=
  <[1 := with_payload (DirectoryPayload {[ "dev"%string := Some 2 ]})
           (Directory_new 493 NullBackend)]>
  (<[2 := with_parent (Some 1)
            (with_payload (DirectoryPayload
               (<["stdin"%string := Some 3]> {[ "stdout"%string := Some 4 ]}))
               (Directory_new 493 NullBackend))]>
  (<[3 := with_parent (Some 2) (DataFile_new 146 NullBackend 0)]>
  (<[4 := with_parent (Some 2) (DataFile_new 146 NullBackend 0)]> ∅))).

(** ** The SyncToAsync bridge

    The threads that touch one [SyncToAsync] object: the thread that runs
    its constructor, the dedicated worker, the threads that call
    [invoke] (one call each) and the thread that runs the destructor. A
    thread moves from one synchronisation point to the next in one step:
    between two such points it either holds [mutex] or touches no shared
    field. [condition.wait(lock, pred)] is the loop
    [while (!pred()) wait(lock)]: evaluating [pred] with the mutex held,
    and, when it fails, releasing the mutex and blocking until a
    notification (or a spurious wake-up), then re-acquiring the mutex. *)
Module SyncToAsync.

Inductive State := Uninitialized | Waiting | WorkAvailable | ShouldExit.

#[global] Instance State_eq_dec : EqDecision State.
Proof. solve_decision. Defined.

Inductive tid :=
| TCtor
| TWorker
| TInvoker (i : nat)
| TDtor.

#[global] Instance tid_eq_dec : EqDecision tid.
Proof. solve_decision. Defined.

(** Program points of [SyncToAsync()]. *)
Inductive ctor_pc :=
| CLock      (* std::unique_lock<std::mutex> lock(mutex) *)
| CSpawn     (* thread = std::thread(threadMain, this) *)
| CCheck     (* condition.wait: the predicate state == Waiting *)
| CBlocked   (* condition.wait: blocked, mutex released *)
| CWoken     (* condition.wait: notified, re-acquiring the mutex *)
| CDone.     (* returned *)

(** Program points of the worker: [threadMain], then [threadIter] again
    and again, each run scheduled by [emscripten_async_call]. *)
Inductive worker_pc :=
| WUnborn              (* the thread does not exist yet *)
| WLock                (* threadMain: parent->workerLock.lock() *)
| WNotify              (* threadMain: notify_one, schedule threadIter *)
| WIter                (* threadIter is scheduled *)
| WCheck               (* threadIter: the predicate of condition.wait *)
| WBlocked             (* threadIter: blocked in condition.wait *)
| WWoken               (* threadIter: notified, re-acquiring the mutex *)
| WGo                  (* threadIter: after the wait *)
| WRunning (w : nat)   (* work w was called and has not resumed yet *)
| WExited.             (* pthread_exit(0) *)

(** Program points of one call of [invoke]. *)
Inductive invoker_pc :=
| IStart                      (* std::unique_lock<std::mutex> lock(mutex) *)
| ICheckReady                 (* state != Waiting ? *)
| IBlockedReady               (* blocked waiting for state == Waiting *)
| IWokenReady                 (* notified, re-acquiring the mutex *)
| ISubmit                     (* assert ... condition.notify_all() *)
| ICheckDone (workID : Z)     (* the predicate workCount > workID *)
| IBlockedDone (workID : Z)   (* blocked waiting for workCount > workID *)
| IWokenDone (workID : Z)     (* notified, re-acquiring the mutex *)
| IReturned.

(** Program points of [~SyncToAsync()]. *)
Inductive dtor_pc :=
| DIdle      (* not called *)
| DHold      (* holds the mutex: assert, state = ShouldExit, notify_one, unlock *)
| DJoin      (* thread.join() *)
| DDone.

#[global] Instance ctor_pc_eq_dec : EqDecision ctor_pc.
Proof. solve_decision. Defined.
#[global] Instance worker_pc_eq_dec : EqDecision worker_pc.
Proof. solve_decision. Defined.
#[global] Instance invoker_pc_eq_dec : EqDecision invoker_pc.
Proof. solve_decision. Defined.
#[global] Instance dtor_pc_eq_dec : EqDecision dtor_pc.
Proof. solve_decision. Defined.

(** The assertions of the class. *)
Inductive assertion :=
| AOwnsLock          (* assert(parent->workerLock.owns_lock()) *)
| AWorkAvailable     (* assert(parent->state == WorkAvailable) *)
| AOverflow          (* assert(parent->workCount && "workCount overflowed!") *)
| AInvokeWaiting     (* invoke: assert(state == Waiting) *)
| ADtorWaiting       (* ~SyncToAsync: assert(state == Waiting) *)
| AEmptyWork.        (* calling an empty std::function *)

(** What the bridge did, in the order in which it happened. *)
Inductive bevent :=
| ESubmit (i : nat)    (* invoke i stored its work *)
| EStart (w : nat)     (* the worker called work w *)
| EResume (w : nat)    (* the resume callback given to work w fired *)
| EReturn (i : nat).   (* invoke i returned *)

#[global] Instance bevent_eq_dec : EqDecision bevent.
Proof. solve_decision. Defined.

Record Bridge := mkBridge {
  mutex : option tid;            (* std::mutex: its owner *)
  state : State;
  workCount : Z;                 (* uint64_t *)
  work : option nat;             (* the stored work, named by its invoker *)
  cpc : ctor_pc;
  wpc : worker_pc;
  dpc : dtor_pc;
  ipcs : list invoker_pc;
  failed : option assertion;     (* the assertion that aborted the process *)
  events : list bevent
}.

Definition set_mutex (m : option tid) (s : Bridge) : Bridge :=
  mkBridge m (state s) (workCount s) (work s) (cpc s) (wpc s) (dpc s) (ipcs s)
           (failed s) (events s).
Definition set_state (x : State) (s : Bridge) : Bridge :=
  mkBridge (mutex s) x (workCount s) (work s) (cpc s) (wpc s) (dpc s) (ipcs s)
           (failed s) (events s).
Definition set_workCount (n : Z) (s : Bridge) : Bridge :=
  mkBridge (mutex s) (state s) n (work s) (cpc s) (wpc s) (dpc s) (ipcs s)
           (failed s) (events s).
Definition set_work (w : option nat) (s : Bridge) : Bridge :=
  mkBridge (mutex s) (state s) (workCount s) w (cpc s) (wpc s) (dpc s) (ipcs s)
           (failed s) (events s).
Definition set_cpc (p : ctor_pc) (s : Bridge) : Bridge :=
  mkBridge (mutex s) (state s) (workCount s) (work s) p (wpc s) (dpc s) (ipcs s)
           (failed s) (events s).
Definition set_wpc (p : worker_pc) (s : Bridge) : Bridge :=
  mkBridge (mutex s) (state s) (workCount s) (work s) (cpc s) p (dpc s) (ipcs s)
           (failed s) (events s).
Definition set_dpc (p : dtor_pc) (s : Bridge) : Bridge :=
  mkBridge (mutex s) (state s) (workCount s) (work s) (cpc s) (wpc s) p (ipcs s)
           (failed s) (events s).
Definition set_ipcs (l : list invoker_pc) (s : Bridge) : Bridge :=
  mkBridge (mutex s) (state s) (workCount s) (work s) (cpc s) (wpc s) (dpc s) l
           (failed s) (events s).
Definition set_ipc (i : nat) (p : invoker_pc) (s : Bridge) : Bridge :=
  set_ipcs (<[i := p]> (ipcs s)) s.
Definition fail (a : assertion) (s : Bridge) : Bridge :=
  mkBridge (mutex s) (state s) (workCount s) (work s) (cpc s) (wpc s) (dpc s) (ipcs s)
           (Some a) (events s).
Definition emit (e : bevent) (s : Bridge) : Bridge :=
  mkBridge (mutex s) (state s) (workCount s) (work s) (cpc s) (wpc s) (dpc s) (ipcs s)
           (failed s) (events s ++ [e]).

(** The object before its constructor runs: [state = Uninitialized],
    [workCount = 0], [workerLock(mutex, std::defer_lock)], and [K] threads
    that are going to call [invoke]. *)
Definition init (K : nat) : Bridge :=
  mkBridge None Uninitialized 0 None CLock WUnborn DIdle (replicate K IStart) None [].

(** *** The mutex and the condition variable *)

(** [lock()]: possible when nobody owns the mutex. *)
Definition acquire (t : tid) (s : Bridge) : option Bridge :=
  match mutex s with
  | None => Some (set_mutex (Some t) s)
  | Some _ => None
  end.

Definition release (s : Bridge) : Bridge := set_mutex None s.

(** A waiter that a notification reaches leaves [wait] and goes on to
    re-acquire the mutex. *)
Definition wake_ctor (p : ctor_pc) : ctor_pc :=
  match p with CBlocked => CWoken | _ => p end.
Definition wake_worker (p : worker_pc) : worker_pc :=
  match p with WBlocked => WWoken | _ => p end.
Definition wake_invoker (p : invoker_pc) : invoker_pc :=
  match p with
  | IBlockedReady => IWokenReady
  | IBlockedDone id => IWokenDone id
  | _ => p
  end.

Definition invoker_blocked (p : invoker_pc) : bool :=
  match p with IBlockedReady | IBlockedDone _ => true | _ => false end.

(** The thread is blocked in [condition.wait]. *)
Definition waiting (s : Bridge) (t : tid) : bool :=
  match t with
  | TCtor => bool_decide (cpc s = CBlocked)
  | TWorker => bool_decide (wpc s = WBlocked)
  | TInvoker i => from_option invoker_blocked false (ipcs s !! i)
  | TDtor => false
  end.

Definition no_waiter (s : Bridge) : bool :=
  negb (waiting s TCtor) && negb (waiting s TWorker)
  && forallb (λ p, negb (invoker_blocked p)) (ipcs s).

Definition wake (t : tid) (s : Bridge) : Bridge :=
  match t with
  | TCtor => set_cpc (wake_ctor (cpc s)) s
  | TWorker => set_wpc (wake_worker (wpc s)) s
  | TInvoker i =>
      match ipcs s !! i with
      | Some p => set_ipc i (wake_invoker p) s
      | None => s
      end
  | TDtor => s
  end.

(** [condition.notify_all()]. *)
Definition notify_all (s : Bridge) : Bridge :=
  set_cpc (wake_ctor (cpc s))
    (set_wpc (wake_worker (wpc s))
       (set_ipcs (wake_invoker <$> ipcs s) s)).

(** [condition.notify_one()]: one waiter, [pick], leaves [wait]; without
    any waiter the call does nothing. *)
Definition notify_one (pick : tid) (s : Bridge) : option Bridge :=
  if waiting s pick then Some (wake pick s)
  else if no_waiter s then Some s
  else None.

(** *** The code of the threads *)

(** [SyncToAsync()]. *)
Definition step_ctor (s : Bridge) : option Bridge :=
  match cpc s with
  | CLock => acquire TCtor (set_cpc CSpawn s)
  | CSpawn => Some (set_wpc WLock (set_cpc CCheck s))
  | CCheck =>
      if decide (state s = Waiting)
      then Some (release (set_cpc CDone s))
      else Some (release (set_cpc CBlocked s))
  | CWoken => acquire TCtor (set_cpc CCheck s)
  | CBlocked | CDone => None
  end.

(** [workCount++] on a [uint64_t]. *)
Definition incr64 (n : Z) : Z := (n + 1) mod 2 ^ 64.

(** The [resume] closure that [threadIter] hands to the work. *)
Definition resume (w : nat) (s : Bridge) : Bridge :=
  if decide (mutex s = Some TWorker) then
    let s1 := set_workCount (incr64 (workCount s)) s in
    if decide (workCount s1 = 0) then fail AOverflow s1
    else set_wpc WIter (notify_all (emit (EResume w) s1))
  else fail AOwnsLock s.

(** [threadMain] and [threadIter]. *)
Definition step_worker (pick : tid) (s : Bridge) : option Bridge :=
  match wpc s with
  | WUnborn => None
  | WLock => acquire TWorker (set_wpc WNotify s)
  | WNotify => notify_one pick (set_wpc WIter s)
  | WIter =>
      if decide (mutex s = Some TWorker)
      then Some (set_state Waiting (set_wpc WCheck s))
      else Some (fail AOwnsLock s)
  | WCheck =>
      if decide (state s = WorkAvailable ∨ state s = ShouldExit)
      then Some (set_wpc WGo s)
      else Some (release (set_wpc WBlocked s))
  | WBlocked => None
  | WWoken => acquire TWorker (set_wpc WCheck s)
  | WGo =>
      if decide (state s = ShouldExit) then Some (set_wpc WExited s)
      else if decide (state s = WorkAvailable) then
        match work s with
        | Some w => Some (set_wpc (WRunning w) (emit (EStart w) s))
        | None => Some (fail AEmptyWork s)
        end
      else Some (fail AWorkAvailable s)
  | WRunning w => Some (resume w s)
  | WExited => None
  end.

(** [invoke], called by thread [i] with its own work. *)
Definition step_invoker (i : nat) (s : Bridge) : option Bridge :=
  match ipcs s !! i with
  | Some IStart =>
      if decide (cpc s = CDone) then acquire (TInvoker i) (set_ipc i ICheckReady s)
      else None
  | Some ICheckReady =>
      if decide (state s = Waiting)
      then Some (set_ipc i ISubmit s)
      else Some (release (set_ipc i IBlockedReady s))
  | Some IWokenReady => acquire (TInvoker i) (set_ipc i ICheckReady s)
  | Some ISubmit =>
      if decide (state s = Waiting) then
        let workID := workCount s in
        Some (notify_all
                (set_state WorkAvailable
                   (set_work (Some i)
                      (set_ipc i (ICheckDone workID) (emit (ESubmit i) s)))))
      else Some (fail AInvokeWaiting s)
  | Some (ICheckDone workID) =>
      if decide (workID < workCount s)
      then Some (release (set_ipc i IReturned (emit (EReturn i) s)))
      else Some (release (set_ipc i (IBlockedDone workID) s))
  | Some (IWokenDone workID) => acquire (TInvoker i) (set_ipc i (ICheckDone workID) s)
  | Some IBlockedReady | Some (IBlockedDone _) | Some IReturned | None => None
  end.

(** [~SyncToAsync()]. *)
Definition step_dtor (pick : tid) (s : Bridge) : option Bridge :=
  match dpc s with
  | DIdle =>
      if decide (cpc s = CDone) then acquire TDtor (set_dpc DHold s) else None
  | DHold =>
      if decide (state s = Waiting)
      then release <$> notify_one pick (set_dpc DJoin (set_state ShouldExit s))
      else Some (fail ADtorWaiting s)
  | DJoin => if decide (wpc s = WExited) then Some (set_dpc DDone s) else None
  | DDone => None
  end.

(** The scheduler's choices: thread [t] takes its next step ([pick] is
    the waiter a [notify_one] of that step reaches), or a waiter wakes
    up spuriously. *)
Inductive label :=
| Run (t : tid) (pick : tid)
| Spurious (t : tid).

Definition step (l : label) (s : Bridge) : option Bridge :=
  match failed s with
  | Some _ => None
  | None =>
      match l with
      | Run TCtor _ => step_ctor s
      | Run TWorker pick => step_worker pick s
      | Run (TInvoker i) _ => step_invoker i s
      | Run TDtor pick => step_dtor pick s
      | Spurious t => if waiting s t then Some (wake t s) else None
      end
  end.

Fixpoint run (ls : list label) (s : Bridge) : option Bridge :=
  match ls with
  | [] => Some s
  | l :: ls => s' ← step l s; run ls s'
  end.

Definition reachable (K : nat) (s : Bridge) : Prop :=
  ∃ ls, run ls (init K) = Some s.

(** Schedules without spurious wake-ups and without the destructor. *)
Definition quiet (l : label) : bool :=
  match l with
  | Run TDtor _ => false
  | Run _ _ => true
  | Spurious _ => false
  end.

Definition all_returned (s : Bridge) : Prop :=
  Forall (λ p, p = IReturned) (ipcs s).

(** *** Invariants *)

Definition holds_ctor (p : ctor_pc) : bool :=
  match p with CSpawn | CCheck => true | _ => false end.
Definition holds_worker (p : worker_pc) : bool :=
  match p with
  | WNotify | WIter | WCheck | WGo | WRunning _ | WExited => true
  | _ => false
  end.
Definition holds_invoker (p : invoker_pc) : bool :=
  match p with ICheckReady | ISubmit | ICheckDone _ => true | _ => false end.
Definition holds_dtor (p : dtor_pc) : bool :=
  match p with DHold => true | _ => false end.

(** The captured [workID] of a call that has stored its work and not
    returned yet. *)
Definition workID_of (p : invoker_pc) : option Z :=
  match p with
  | ICheckDone id | IBlockedDone id | IWokenDone id => Some id
  | _ => None
  end.

(** The call has stored its work. *)
Definition submitted (p : invoker_pc) : bool :=
  match p with
  | ICheckDone _ | IBlockedDone _ | IWokenDone _ | IReturned => true
  | _ => false
  end.

(** The worker thread has not reached its first [threadIter]. *)
Definition starting (p : worker_pc) : bool :=
  match p with WUnborn | WLock | WNotify => true | _ => false end.

(** A stored work item whose resume callback has not fired. *)
Definition in_flight (st : State) (p : worker_pc) : bool :=
  match st, p with
  | WorkAvailable, WIter => false
  | WorkAvailable, _ => true
  | _, _ => false
  end.

Definition is_running (p : worker_pc) : bool :=
  match p with WRunning _ => true | _ => false end.

Definition count_resumes (es : list bevent) : nat :=
  sum_list_with (λ e, if e is EResume _ then 1%nat else 0%nat) es.
Definition count_starts (es : list bevent) : nat :=
  sum_list_with (λ e, if e is EStart _ then 1%nat else 0%nat) es.
Definition count_submitted (l : list invoker_pc) : nat :=
  sum_list_with (λ p, if submitted p then 1%nat else 0%nat) l.

(** Exactly the thread whose program point lies inside a critical
    section owns the mutex. *)
Record mutex_ok (s : Bridge) : Prop := mkMutexOk {
  mo_ctor : holds_ctor (cpc s) = true ↔ mutex s = Some TCtor;
  mo_worker : holds_worker (wpc s) = true ↔ mutex s = Some TWorker;
  mo_dtor : holds_dtor (dpc s) = true ↔ mutex s = Some TDtor;
  mo_invoker : ∀ i, from_option holds_invoker false (ipcs s !! i) = true
                    ↔ mutex s = Some (TInvoker i)
}.

(** Nobody uses the object before its constructor has returned, and the
    constructor returns only after the worker has reached its first
    wait. *)
Record startup_ok (s : Bridge) : Prop := mkStartupOk {
  so_fresh : cpc s ≠ CDone → Forall (λ p, p = IStart) (ipcs s) ∧ dpc s = DIdle;
  so_starting : starting (wpc s) = true → cpc s ≠ CDone ∧ state s = Uninitialized;
  so_unborn : wpc s = WUnborn ↔ (cpc s = CLock ∨ cpc s = CSpawn)
}.

Record state_ok (s : Bridge) : Prop := mkStateOk {
  st_submit : ∀ i, ipcs s !! i = Some ISubmit → state s = Waiting;
  st_running : ∀ w, wpc s = WRunning w → state s = WorkAvailable ∧ work s = Some w;
  st_go : wpc s = WGo → state s = WorkAvailable ∨ state s = ShouldExit;
  st_work : state s = WorkAvailable → is_Some (work s)
}.

(** A call that has stored its work either sees the counter above its
    [workID], and then its own resume callback has fired, or its work is
    the one in the slot and has not resumed. *)
Record ids_ok (s : Bridge) : Prop := mkIdsOk {
  io_workID : ∀ i p id, ipcs s !! i = Some p → workID_of p = Some id →
      (id < workCount s ∧ EResume i ∈ events s) ∨
      (id = workCount s ∧ state s = WorkAvailable ∧ work s = Some i ∧ wpc s ≠ WIter);
  io_range : 0 ≤ workCount s < 2 ^ 64;
  io_returned : ∀ i, ipcs s !! i = Some IReturned → EResume i ∈ events s;
  io_order : ∀ i pre post, events s = pre ++ EReturn i :: post → EResume i ∈ pre
}.

Record counts_ok (K : nat) (s : Bridge) : Prop := mkCountsOk {
  co_length : length (ipcs s) = K;
  co_one : count_starts (events s)
           = (count_resumes (events s) + if is_running (wpc s) then 1 else 0)%nat;
  co_count : workCount s = Z.of_nat (count_resumes (events s));
  co_total : (count_resumes (events s) + if in_flight (state s) (wpc s) then 1 else 0)%nat
             = count_submitted (ipcs s)
}.

(** What holds in every state that the threads can reach, whatever the
    schedule, as long as no assertion has failed. *)
Definition safe (K : nat) (s : Bridge) : Prop :=
  mutex_ok s ∧ startup_ok s ∧ state_ok s ∧ ids_ok s ∧ counts_ok K s.

(** *** Progress of schedules without the destructor *)

(** The worker has accepted the stored work, or is about to. *)
Definition busy (st : State) (p : worker_pc) : bool :=
  match st, p with
  | WorkAvailable, (WWoken | WCheck | WGo | WRunning _) => true
  | _, _ => false
  end.

(** What holds in addition when nobody destroys the bridge, no waiter
    wakes up spuriously, and the counter cannot overflow: no assertion
    fails, the worker never exits, and every blocked thread has a
    notification coming. *)
Record live_ok (s : Bridge) : Prop := mkLiveOk {
  lv_failed : failed s = None;
  lv_dtor : dpc s = DIdle;
  lv_exit : state s ≠ ShouldExit ∧ wpc s ≠ WExited;
  lv_init : state s = Uninitialized → cpc s ≠ CDone;
  lv_uninit : state s = Uninitialized → starting (wpc s) = true ∨ wpc s = WIter;
  lv_avail : state s = WorkAvailable → cpc s = CDone;
  lv_blocked : wpc s = WBlocked → state s = Waiting;
  lv_woken : wpc s = WWoken → state s = WorkAvailable;
  lv_ctor : cpc s = CBlocked → wpc s = WLock ∨ wpc s = WNotify;
  lv_ctor_woken : cpc s = CWoken → ¬ starting (wpc s) = true;
  lv_busy : ∀ i p, ipcs s !! i = Some p → invoker_blocked p = true →
            busy (state s) (wpc s) = true
}.

(** The distance of a thread from its next notification or from its end. *)
Definition rank_ctor (p : ctor_pc) : nat :=
  match p with
  | CLock => 5 | CSpawn => 4 | CWoken => 3 | CCheck => 2 | CBlocked => 1 | CDone => 0
  end.
Definition rank_worker (p : worker_pc) : nat :=
  match p with
  | WUnborn => 7 | WLock => 6 | WNotify => 5 | WIter => 4 | WWoken => 3
  | WCheck => 2 | WBlocked => 1 | WGo => 1 | WRunning _ => 0 | WExited => 0
  end.
Definition rank_invoker (p : invoker_pc) : nat :=
  match p with
  | IStart => 4 | IWokenReady => 3 | ICheckReady => 2 | IBlockedReady => 1
  | ISubmit => 1
  | IWokenDone _ => 3 | ICheckDone _ => 2 | IBlockedDone _ => 1 | IReturned => 0
  end.

(** The notifications still to come: the one of [threadMain], and for
    every call the one that announces its work and the one that
    announces its completion. *)
Definition pending_of (p : invoker_pc) : nat :=
  if submitted p then 0 else 2.

Definition pending (s : Bridge) : nat :=
  sum_list_with pending_of (ipcs s)
  + (if in_flight (state s) (wpc s) then 1 else 0)
  + (if starting (wpc s) then 1 else 0).

Definition ranks (s : Bridge) : nat :=
  rank_ctor (cpc s) + rank_worker (wpc s) + sum_list_with rank_invoker (ipcs s).

Definition weight (K : nat) : nat := 4 * K + 13.

Definition measure (K : nat) (s : Bridge) : nat :=
  pending s * weight K + ranks s.

(** A schedule of two calls, for the examples: the constructor and the
    worker start up, call 0 stores its work and blocks, call 1 finds the
    bridge busy and blocks, the worker runs work 0 until it resumes and
    waits again, call 1 stores its work, call 0 returns, the worker runs
    work 1, call 1 returns. *)
Definition sample_schedule : list label :=
  let c := Run TCtor TCtor in
  let w := Run TWorker TCtor in
  let i0 := Run (TInvoker 0) TCtor in
  let i1 := Run (TInvoker 1) TCtor in
  [c; c; c; w; w; w; w; c; c;
   i0; i0; i0; i0; i1; i1;
   w; w; w; w; w; w;
   i1; i1; i1; i1; i0; i0;
   w; w; w; w; w; w;
   i1; i1].

Definition state_after (n : nat) : Bridge :=
  default (init 2) (run (take n sample_schedule) (init 2)).

(** *** The phases of the object *)

(** What the [state] field tells in every state the threads can reach:
    the constructor does not return on an uninitialised bridge, only the
    destructor ends it, and stored work that has not resumed belongs to a
    call that captured the current counter. *)
Record phase_ok (s : Bridge) : Prop := mkPhaseOk {
  po_init : state s = Uninitialized → cpc s ≠ CDone;
  po_exit : state s = ShouldExit → dpc s = DJoin ∨ dpc s = DDone;
  po_submitter : state s = WorkAvailable → wpc s ≠ WIter →
                 ∃ i, ipcs s !! i ≫= workID_of = Some (workCount s)
}.

(** No call of [invoke] is in progress: every call has not begun or has
    returned. *)
Definition no_call_in_progress (s : Bridge) : Prop :=
  Forall (λ p, p = IStart ∨ p = IReturned) (ipcs s).

(** A schedule in which the destructor races with a call: the call has
    stored its work and waits when the destructor takes the mutex. *)
Definition race_schedule : list label :=
  let c := Run TCtor TCtor in
  let w := Run TWorker TCtor in
  let i0 := Run (TInvoker 0) TCtor in
  let d := Run TDtor TWorker in
  [c; c; c; w; w; w; w; c; c; i0; i0; i0; i0; d; d].

(** *** The work slot as the events tell it *)

Inductive slot := Vacant | Stored (i : nat) | Started (i : nat).

(** One event against the slot: work is stored into a vacant slot, the
    stored work is started, the started work resumes and vacates the
    slot; a return leaves the slot alone. *)
Definition accept (q : slot) (e : bevent) : option slot :=
  match e, q with
  | ESubmit i, Vacant => Some (Stored i)
  | EStart w, Stored i => if decide (w = i) then Some (Started i) else None
  | EResume w, Started i => if decide (w = i) then Some Vacant else None
  | EReturn _, _ => Some q
  | _, _ => None
  end.

Fixpoint accepts (q : slot) (es : list bevent) : option slot :=
  match es with
  | [] => Some q
  | e :: es => q' ← accept q e; accepts q' es
  end.

(** The slot as the fields tell it. *)
Definition slot_of (s : Bridge) : slot :=
  match wpc s with
  | WRunning w => Started w
  | _ => if in_flight (state s) (wpc s) then Stored (default 0%nat (work s)) else Vacant
  end.

(** *** Shutting down *)

(** Schedules without spurious wake-ups. *)
Definition deliberate (l : label) : bool :=
  match l with Run _ _ => true | Spurious _ => false end.

Definition rank_dtor (p : dtor_pc) : nat :=
  match p with DIdle => 3 | DHold => 2 | DJoin => 1 | DDone => 0 end.

Definition shutdown_measure (s : Bridge) : nat :=
  4 * rank_dtor (dpc s) + rank_worker (wpc s).

(** Where the worker stands while the destructor runs on a bridge that
    all calls have left. *)
Definition shutdown_shape (s : Bridge) : Prop :=
  match dpc s with
  | DIdle | DHold =>
      wpc s = WIter ∨ (state s = Waiting ∧ (wpc s = WCheck ∨ wpc s = WBlocked))
  | DJoin =>
      state s = ShouldExit ∧
      (wpc s = WWoken ∨ wpc s = WCheck ∨ wpc s = WGo ∨ wpc s = WExited)
  | DDone => state s = ShouldExit ∧ wpc s = WExited
  end.

Record shutdown_ok (s : Bridge) : Prop := mkShutdownOk {
  sd_failed : failed s = None;
  sd_ctor : cpc s = CDone;
  sd_calls : all_returned s;
  sd_mutex : mutex_ok s;
  sd_shape : shutdown_shape s
}.

(** The destructor after the two calls of [sample_schedule]: it takes
    the mutex, tells the worker to exit and wakes it, the worker leaves
    its wait and exits, the join returns. *)
Definition shutdown_schedule : list label :=
  let w := Run TWorker TWorker in
  let d := Run TDtor TWorker in
  [d; d; w; w; w; d].

Definition shutdown_after (n : nat) : Bridge :=
  default (init 2) (run (take n shutdown_schedule) (state_after 35)).

(** *** Counting the events of one call *)

#[global] Instance slot_eq_dec : EqDecision slot.
Proof. solve_decision. Defined.

Definition count_event (e : bevent) (es : list bevent) : nat :=
  length (filter (λ x, x = e) es).

(** A call has stored its work once exactly when its program point lies
    behind the store, and has returned once exactly when it stands at its
    end. *)
Record once_ok (s : Bridge) : Prop := mkOnceOk {
  oo_submit : ∀ i, count_event (ESubmit i) (events s)
                   = if from_option submitted false (ipcs s !! i) then 1%nat else 0%nat;
  oo_return : ∀ i, count_event (EReturn i) (events s)
                   = if decide (ipcs s !! i = Some IReturned) then 1%nat else 0%nat
}.

(** The bridge at rest: constructed, every call returned, the worker
    blocked in the wait of [threadIter], ready for work, the mutex free. *)
Definition at_rest (s : Bridge) : Prop :=
  cpc s = CDone ∧ all_returned s ∧ wpc s = WBlocked ∧ state s = Waiting ∧ mutex s = None.

Arguments notify_all : simpl never.
Arguments count_event : simpl never.
Arguments wake : simpl never.
Arguments count_resumes : simpl never.
Arguments count_starts : simpl never.
Arguments count_submitted : simpl never.

End SyncToAsync.

(** * Properties *)

Lemma bind_Ok {A B} (m : M A) (f : A → M B) s b s'' :
  (m ≫= f) s = Ok b s'' ↔ ∃ a s', m s = Ok a s' ∧ f a s' = Ok b s''.
Proof.
  unfold mbind, M_bind. destruct (m s) as [a s'| |]; split.
  - eauto.
  - intros (a' & s1 & [= -> ->] & ?). done.
  - done.
  - intros (? & ? & [=] & _).
  - done.
  - intros (? & ? & [=] & _).
Qed.

Lemma ret_Ok {A} (a b : A) s s' : mret (M:=M) a s = Ok b s' ↔ a = b ∧ s = s'.
Proof. unfold mret, M_ret. split; [intros [= -> ->]|intros [-> ->]]; done. Qed.

Lemma load_Ok a s f s' : load a s = Ok f s' ↔ heap s !! a = Some f ∧ s' = s.
Proof.
  unfold load. destruct (heap s !! a); split; try done.
  - intros [= -> ->]. done.
  - intros [[= ->] ->]. done.
  - intros [[=] _].
Qed.

Lemma assert_Ok b s u s' : assert b s = Ok u s' ↔ b = true ∧ s' = s.
Proof. unfold assert. destruct b, u; split; try done; [intros [= ->]|intros [_ ->]|intros [[=] _]]; done. Qed.

Lemma store_Ok a f s u s' : store a f s = Ok u s' ↔ s' = mkFS (<[a:=f]> (heap s)) (trace s).
Proof. unfold store. destruct u. split; [intros [= <-]|intros ->]; done. Qed.

Lemma log_Ok e s u s' : log e s = Ok u s' ↔ s' = mkFS (heap s) (trace s ++ [e]).
Proof. unfold log. destruct u. split; [intros [= <-]|intros ->]; done. Qed.

Lemma get_heap_Ok s h s' : get_heap s = Ok h s' ↔ h = heap s ∧ s' = s.
Proof. unfold get_heap. split; [intros [= <- <-]|intros [-> ->]]; done. Qed.

Lemma deref_Ok p s a s' : deref p s = Ok a s' ↔ p = Some a ∧ is_Some (heap s !! a) ∧ s' = s.
Proof.
  unfold deref. destruct p as [x|]; [|split; [done|intros [[=] _]]].
  destruct (decide _) as [Hx|Hx]; split.
  - intros [= -> ->]. done.
  - intros ([= ->] & _ & ->). done.
  - done.
  - intros ([= ->] & ? & _). done.
Qed.

Ltac minv :=
  repeat match goal with
  | H : (_ ≫= _) _ = Ok _ _ |- _ => apply bind_Ok in H as (? & ? & ? & ?)
  | H : mret _ _ = Ok _ _ |- _ => apply ret_Ok in H as [? ?]
  | H : load _ _ = Ok _ _ |- _ => apply load_Ok in H as [? ?]
  | H : assert _ _ = Ok _ _ |- _ => apply assert_Ok in H as [? ?]
  | H : store _ _ _ = Ok _ _ |- _ => apply store_Ok in H
  | H : log _ _ = Ok _ _ |- _ => apply log_Ok in H
  | H : get_heap _ = Ok _ _ |- _ => apply get_heap_Ok in H as [? ?]
  | H : deref _ _ = Ok _ _ |- _ => apply deref_Ok in H as (? & ? & ?)
  | H : bool_decide _ = true |- _ => apply bool_decide_eq_true in H
  end; simplify_eq/=.

#[local] Instance same_kinds_refl : Reflexive same_kinds.
Proof. intros h a f ?; eauto. Qed.
#[local] Instance same_kinds_trans : Transitive same_kinds.
Proof. intros h1 h2 h3 H1 H2 a f Ha. destruct (H1 _ _ Ha) as (f' & Ha' & <-). destruct (H2 _ _ Ha') as (f'' & ? & <-). eauto. Qed.

Lemma same_kinds_insert h a g g' :
  h !! a = Some g → kind g' = kind g → same_kinds h (<[a:=g']> h).
Proof.
  intros Hg Hk b f Hb. destruct (decide (a = b)) as [->|].
  - rewrite lookup_insert_eq. simplify_eq. eauto.
  - rewrite lookup_insert_ne by done. eauto.
Qed.

Lemma lock_kinds a s u s' : lock a s = Ok u s' → same_kinds (heap s) (heap s').
Proof. unfold lock. intros H. minv. by eapply same_kinds_insert. Qed.

Lemma unlock_kinds a s u s' : unlock a s = Ok u s' → same_kinds (heap s) (heap s').
Proof. unfold unlock. intros H. minv. by eapply same_kinds_insert. Qed.

Lemma locked_kinds p s a s' : locked p s = Ok a s' → same_kinds (heap s) (heap s').
Proof. unfold locked. intros H. minv. by eapply lock_kinds. Qed.

Lemma setParent_kinds a p s u s' : setParent a p s = Ok u s' → same_kinds (heap s) (heap s').
Proof. unfold setParent. intros H. minv. by eapply same_kinds_insert. Qed.

Lemma getParent_state a s p s' : getParent a s = Ok p s' → s' = s.
Proof. unfold getParent. intros H. by minv. Qed.

Lemma getDir_state d s es s' : getDir d s = Ok es s' → s' = s.
Proof. unfold getDir. intros H. by minv. Qed.

Lemma setDirEntries_kinds d es s u s' :
  setDirEntries d es s = Ok u s' → same_kinds (heap s) (heap s').
Proof. unfold setDirEntries. intros H. minv. by eapply same_kinds_insert. Qed.

Lemma setEntry_kinds d n c s u s' :
  setEntry d n c s = Ok u s' → same_kinds (heap s) (heap s').
Proof.
  unfold setEntry. intros H. minv.
  repeat match goal with
  | H : locked _ _ = Ok _ _ |- _ => apply locked_kinds in H
  | H : getDir _ _ = Ok _ _ |- _ => apply getDir_state in H as ->
  | H : getParent _ _ = Ok _ _ |- _ => apply getParent_state in H as ->
  | H : setDirEntries _ _ _ = Ok _ _ |- _ => apply setDirEntries_kinds in H
  | H : setParent _ _ _ = Ok _ _ |- _ => apply setParent_kinds in H
  | H : unlock _ _ = Ok _ _ |- _ => apply unlock_kinds in H
  end; simpl in *.
  repeat (etrans; [eassumption|]). done.
Qed.

Lemma unlinkEntry_kinds d n s u s' :
  unlinkEntry d n s = Ok u s' → same_kinds (heap s) (heap s').
Proof.
  unfold unlinkEntry. intros H. minv.
  repeat match goal with
  | H : locked _ _ = Ok _ _ |- _ => apply locked_kinds in H
  | H : getDir _ _ = Ok _ _ |- _ => apply getDir_state in H as ->
  | H : getParent _ _ = Ok _ _ |- _ => apply getParent_state in H as ->
  | H : setDirEntries _ _ _ = Ok _ _ |- _ => apply setDirEntries_kinds in H
  | H : setParent _ _ _ = Ok _ _ |- _ => apply setParent_kinds in H
  | H : unlock _ _ = Ok _ _ |- _ => apply unlock_kinds in H
  end; simpl in *.
  repeat (etrans; [eassumption|]). done.
Qed.

Lemma run_op_kinds o s u s' : run_op o s = Ok u s' → same_kinds (heap s) (heap s').
Proof. destruct o; simpl; eauto using setEntry_kinds, unlinkEntry_kinds. Qed.

Lemma run_ops_kinds os s u s' : run_ops os s = Ok u s' → same_kinds (heap s) (heap s').
Proof.
  revert s. induction os as [|o os IH]; intros s H; simpl in H; minv; [done|].
  etrans; [by eapply run_op_kinds|by eapply IH].
Qed.

Lemma is_dir_same_kinds s s' d : same_kinds (heap s) (heap s') → is_dir s d → is_dir s' d.
Proof. intros Hk (f & Hf & Hd). destruct (Hk _ _ Hf) as (f' & ? & ?). exists f'. split; congruence. Qed.

Lemma getSize_dir s d : is_dir s d → getSize d s = Ok 4096 s.
Proof.
  intros (f & Hf & Hk). unfold getSize, mbind, M_bind, load. rewrite Hf.
  unfold File_getSize, kind in *. by destruct (payload f).
Qed.

(** C7. The size query on a directory handle is 4096 whatever the entry
    map holds, and stays 4096 after any sequence of entry insertions and
    removals that runs to completion. *)
Theorem Directory_getSize_constant (s : FS) (d : Z) (os : list dir_op) (s' : FS) :
  is_dir s d →
  run_ops os s = Ok () s' →
  getSize d s = Ok 4096 s ∧ getSize d s' = Ok 4096 s'.
Proof.
  intros Hd Hrun. split; apply getSize_dir; [done|].
  eapply is_dir_same_kinds; [|done]. by eapply run_ops_kinds.
Qed.

Lemma sample_fs_is_dir : is_dir sample_fs 1.
Proof. exists sample_dir. split; reflexivity. Qed.

Lemma Directory_getSize_constant_witness :
  getSize 1 sample_fs = Ok 4096 sample_fs ∧
  getSize 1 (final_state (run_ops sample_ops sample_fs))
  = Ok 4096 (final_state (run_ops sample_ops sample_fs)).
Proof.
  apply (Directory_getSize_constant sample_fs 1 sample_ops).
  - apply sample_fs_is_dir.
  - vm_compute. reflexivity.
Defined.

(** C8. [getIno] is the address of the node converted to [ino_t]. It
    reads no state, so a live node answers the same number in every state,
    and, the address fitting in [ino_t] as the static assertion of the
    source requires, two distinct live nodes answer distinct numbers. *)
Theorem getIno_stable_unique (ptr_size ino_size : Z) (s s' : FS) (a b : Z) :
  0 ≤ ptr_size ≤ ino_size →
  live s a → live s b → addressable ptr_size a → addressable ptr_size b →
  (∃ i, getIno ino_size a s = Ok i s ∧ getIno ino_size a s' = Ok i s') ∧
  (a ≠ b → ∀ i j, getIno ino_size a s = Ok i s → getIno ino_size b s = Ok j s → i ≠ j).
Proof.
  intros Hsz _ _ Ha Hb. split; [eexists; split; reflexivity|].
  intros Hab i j [= <-] [= <-]. unfold addressable in *.
  assert (2 ^ (8 * ptr_size) ≤ 2 ^ (8 * ino_size)) by (apply Z.pow_le_mono_r; lia).
  rewrite !Z.mod_small by lia. done.
Qed.

Lemma bind_run {A B} (m : M A) (f : A → M B) s a s' :
  m s = Ok a s' → (m ≫= f) s = f a s'.
Proof. unfold mbind, M_bind. by intros ->. Qed.

Lemma load_run a s f : heap s !! a = Some f → load a s = Ok f s.
Proof. unfold load. by intros ->. Qed.

Lemma deref_run a s : live s a → deref (Some a) s = Ok a s.
Proof. unfold deref, live. intros. by rewrite decide_True. Qed.

Lemma lock_run a s f :
  heap s !! a = Some f →
  lock a s = Ok () (mkFS (<[a := with_mutex (S (mutex f)) f]> (heap s)) (trace s ++ [ELock a])).
Proof. intros H. unfold lock. rewrite (bind_run _ _ _ _ _ (load_run _ _ _ H)). done. Qed.

Lemma unlock_run a s f :
  heap s !! a = Some f →
  unlock a s = Ok () (mkFS (<[a := with_mutex (pred (mutex f)) f]> (heap s)) (trace s ++ [EUnlock a])).
Proof. intros H. unfold unlock. rewrite (bind_run _ _ _ _ _ (load_run _ _ _ H)). done. Qed.

Lemma locked_run a s f :
  heap s !! a = Some f →
  locked (Some a) s = Ok a (mkFS (<[a := with_mutex (S (mutex f)) f]> (heap s)) (trace s ++ [ELock a])).
Proof.
  intros H. unfold locked.
  rewrite (bind_run _ _ _ _ _ (deref_run a s (mk_is_Some _ _ H))).
  rewrite (bind_run _ _ _ _ _ (lock_run _ _ _ H)). done.
Qed.

Lemma setParent_run a p s f :
  heap s !! a = Some f →
  setParent a p s = Ok () (mkFS (<[a := with_parent p f]> (heap s)) (trace s ++ [ESetParent a p])).
Proof. intros H. unfold setParent. rewrite (bind_run _ _ _ _ _ (load_run _ _ _ H)). done. Qed.

Lemma getParent_run a s f :
  heap s !! a = Some f → getParent a s = Ok (resolve (heap s) (parent f)) s.
Proof. intros H. unfold getParent. rewrite (bind_run _ _ _ _ _ (load_run _ _ _ H)). done. Qed.

Lemma getDir_run d s f :
  heap s !! d = Some f → kind f = DirectoryKind → getDir d s = Ok (entries_of f) s.
Proof.
  intros H Hk. unfold getDir. rewrite (bind_run _ _ _ _ _ (load_run _ _ _ H)).
  by rewrite bool_decide_eq_true_2.
Qed.

Lemma setDirEntries_run d es s f :
  heap s !! d = Some f → kind f = DirectoryKind →
  setDirEntries d es s = Ok () (mkFS (<[d := with_payload (DirectoryPayload es) f]> (heap s)) (trace s)).
Proof.
  intros H Hk. unfold setDirEntries. rewrite (bind_run _ _ _ _ _ (load_run _ _ _ H)).
  by rewrite bool_decide_eq_true_2.
Qed.

Lemma assert_run s : assert true s = Ok () s.
Proof. done. Qed.

Lemma log_run e s : log e s = Ok () (mkFS (heap s) (trace s ++ [e])).
Proof. done. Qed.

Lemma resolve_insert_live h a f w :
  is_Some (h !! a) → resolve (<[a := f]> h) w = resolve h w.
Proof.
  intros Ha. destruct w as [b|]; [|done]. simpl.
  destruct (decide (a = b)) as [->|].
  - rewrite lookup_insert_eq. rewrite !decide_True; eauto.
  - by rewrite lookup_insert_ne.
Qed.

Ltac solve_lookup :=
  simpl; repeat (rewrite lookup_insert_ne by done);
  first [apply lookup_insert_eq | eassumption].

Ltac mstep lem :=
  erewrite bind_run; [|eapply lem; first [solve_lookup | by cbn]]; cbn [heap trace].

Lemma setEntry_run (s : FS) (d c : Z) (n : string) :
  is_dir s d → live s c → parent_of s c = None →
  setEntry d n (Some c) s
  = Ok () (mkFS (map_imap (λ a f, Some (link_file d n c a f)) (heap s))
                (trace s ++ [ELock c; EStoreEntry d n (Some c); EAssertNoParent c;
                             ESetParent c (Some d); EUnlock c])).
Proof.
  intros (fd & Hd & Hk) [fc Hc] Hp. unfold parent_of in Hp. rewrite Hc in Hp.
  unfold setEntry. destruct (decide (d = c)) as [->|Hne]; simplify_eq.
  - mstep locked_run. mstep getDir_run. mstep setDirEntries_run.
    mstep log_run. mstep log_run. mstep getParent_run. cbn [parent with_payload with_mutex].
    rewrite !resolve_insert_live, Hp by (rewrite ?lookup_insert_eq; eauto).
    mstep assert_run. mstep setParent_run. erewrite unlock_run by solve_lookup.
    cbn [heap trace]. f_equal. f_equal.
    + apply map_eq. intros a. rewrite map_lookup_imap, !lookup_insert. unfold link_file.
      repeat case_decide; simplify_eq; rewrite ?Hd; cbn; [|by destruct (heap s !! a)].
      destruct fd; done.
    + by rewrite <- !app_assoc.
  - mstep locked_run. mstep getDir_run. mstep setDirEntries_run.
    mstep log_run. mstep log_run. mstep getParent_run. cbn [parent with_payload with_mutex].
    rewrite !resolve_insert_live, Hp
      by (rewrite ?lookup_insert_eq, ?lookup_insert_ne by done; eauto).
    mstep assert_run. mstep setParent_run. erewrite unlock_run by solve_lookup.
    cbn [heap trace]. f_equal. f_equal.
    + apply map_eq. intros a. rewrite map_lookup_imap, !lookup_insert. unfold link_file.
      repeat case_decide; simplify_eq; rewrite ?Hd, ?Hc; cbn; [..|by destruct (heap s !! a)].
      * destruct fc; done.
      * destruct fd; done.
    + by rewrite <- !app_assoc.
Qed.

Lemma subscript_present n es p : es !! n = Some p → subscript n es = es.
Proof. unfold subscript. by intros ->. Qed.

Lemma unlinkEntry_run (s : FS) (d c : Z) (fd : File) (n : string) :
  heap s !! d = Some fd → kind fd = DirectoryKind →
  entries_of fd !! n = Some (Some c) → live s c →
  unlinkEntry d n s
  = Ok () (mkFS (map_imap (λ a f, Some (unlink_file d n c a f)) (heap s))
                (trace s ++ [ELock c; ESetParent c None; EEraseEntry d n; EUnlock c])).
Proof.
  intros Hd Hk Hn [fc Hc]. unfold unlinkEntry.
  mstep getDir_run. rewrite (subscript_present _ _ _ Hn), Hn. cbn [default].
  mstep setDirEntries_run.
  destruct (decide (d = c)) as [->|Hne]; simplify_eq.
  - mstep locked_run. mstep setParent_run. mstep getDir_run. mstep setDirEntries_run.
    mstep log_run. erewrite unlock_run by solve_lookup.
    cbn [heap trace]. f_equal. f_equal.
    + apply map_eq. intros a. rewrite map_lookup_imap, !lookup_insert. unfold unlink_file.
      repeat case_decide; simplify_eq; rewrite ?Hd; cbn; [|by destruct (heap s !! a)].
      destruct fd; done.
    + by rewrite <- !app_assoc.
  - mstep locked_run. mstep setParent_run. mstep getDir_run. mstep setDirEntries_run.
    mstep log_run. erewrite unlock_run by solve_lookup.
    cbn [heap trace]. f_equal. f_equal.
    + apply map_eq. intros a. rewrite map_lookup_imap, !lookup_insert. unfold unlink_file.
      repeat case_decide; simplify_eq; rewrite ?Hd, ?Hc; cbn; [..|by destruct (heap s !! a)].
      * destruct fd; done.
      * destruct fc; done.
    + by rewrite <- !app_assoc.
Qed.


#[local] Instance entry_le_trans : Transitive entry_le.
Proof. intros x y z. unfold entry_le. apply transitivity. Qed.

#[local] Instance entry_le_total : Total entry_le.
Proof. intros x y. unfold entry_le. apply total, _. Qed.

Lemma StronglySorted_lookup_le {A} (R : relation A) (l : list A) (i j : nat) (x y : A) :
  StronglySorted R l → l !! i = Some x → l !! j = Some y → (i < j)%nat → R x y.
Proof.
  intros Hs. revert i j. induction Hs as [|z l Hs IH Hz]; intros i j Hi Hj Hij; [done|].
  destruct j as [|j]; [lia|]. destruct i as [|i]; simplify_eq/=.
  - rewrite Forall_forall in Hz. apply Hz. by eapply list_elem_of_lookup_2.
  - eapply IH; eauto. lia.
Qed.

Lemma elem_of_ordered (es : gmap string ptr) (n : string) (p : ptr) :
  (n, p) ∈ ordered es ↔ es !! n = Some p.
Proof. unfold ordered. by rewrite merge_sort_Permutation, elem_of_map_to_list. Qed.

Lemma ordered_sorted (es : gmap string ptr) : StronglySorted entry_le (ordered es).
Proof. apply StronglySorted_merge_sort; apply _. Qed.

Lemma first_named_found (es : gmap string ptr) (target : ptr) (n : string) :
  es !! n = Some target →
  es !! first_named target (ordered es) = Some target ∧
  (first_named target (ordered es) ≤ n)%string.
Proof.
  intros Hn. unfold first_named.
  destruct (list_find _ _) as [[i [k v]]|] eqn:Hf.
  - apply list_find_Some in Hf as (Hi & Hv & Hmin). simpl in *. subst v. split.
    + apply elem_of_ordered. by eapply list_elem_of_lookup_2.
    + apply elem_of_ordered, list_elem_of_lookup in Hn as [j Hj].
      destruct (decide (j < i)%nat) as [Hlt|Hge]; [by destruct (Hmin _ _ Hj Hlt)|].
      destruct (decide (i = j)) as [->|]; [by simplify_eq|].
      apply (StronglySorted_lookup_le entry_le (ordered es) i j (k, target) (n, target));
        [apply ordered_sorted|done|done|lia].
  - apply list_find_None in Hf. rewrite Forall_forall in Hf.
    destruct (Hf (n, target)); [by apply elem_of_ordered|done].
Qed.

Lemma first_named_missing (es : gmap string ptr) (target : ptr) :
  (∀ n, es !! n ≠ Some target) → first_named target (ordered es) = "".
Proof.
  intros Hno. unfold first_named.
  destruct (list_find _ _) as [[i [k v]]|] eqn:Hf; [|done].
  apply list_find_Some in Hf as (Hi & Hv & _). simpl in *. subst v.
  destruct (Hno k). apply elem_of_ordered. by eapply list_elem_of_lookup_2.
Qed.

(** C10. [getName] on a directory always returns. When some name of the
    directory is bound to the target it returns such a name, the least one
    in the order of the map; when none is, it returns the empty string. *)
Theorem getName_first_matching_name (s : FS) (d : Z) (fd : File) (target : ptr) :
  heap s !! d = Some fd → kind fd = DirectoryKind →
  ∃ name, getName d target s = Ok name s ∧
    (∀ n, entries_of fd !! n = Some target →
          entries_of fd !! name = Some target ∧ (name ≤ n)%string) ∧
    ((∀ n, entries_of fd !! n ≠ Some target) → name = ""%string).
Proof.
  intros Hd Hk. exists (first_named target (ordered (entries_of fd))). split_and!.
  - unfold getName. by mstep getDir_run.
  - intros n. apply first_named_found.
  - apply first_named_missing.
Qed.


Section net_effect.
Context (g : Z → File → File) (s : FS) (tr : list event).
Abbreviation s' := (mkFS (map_imap (λ a f, Some (g a f)) (heap s)) tr).

Lemma net_lookup a : heap s' !! a = g a <$> heap s !! a.
Proof. simpl. rewrite map_lookup_imap. by destruct (heap s !! a). Qed.

Lemma net_live a : live s' a ↔ live s a.
Proof. unfold live. rewrite net_lookup. apply fmap_is_Some. Qed.

Lemma net_resolve w : resolve (heap s') w = resolve (heap s) w.
Proof.
  destruct w as [a|]; [|done]. unfold resolve.
  pose proof (net_live a) as H. unfold live in H.
  destruct (decide (is_Some (heap s' !! a))), (decide (is_Some (heap s !! a))); tauto.
Qed.

Lemma net_parent_of a :
  parent_of s' a = match heap s !! a with
                   | Some f => resolve (heap s) (parent (g a f))
                   | None => None
                   end.
Proof.
  unfold parent_of. rewrite net_lookup.
  destruct (heap s !! a); simpl; [apply net_resolve|done].
Qed.
End net_effect.

Lemma link_file_parent d n c a f :
  parent (link_file d n c a f) = if decide (a = c) then Some d else parent f.
Proof. unfold link_file. by repeat case_decide. Qed.

Lemma link_file_entries d n c a f :
  entries_of (link_file d n c a f)
  = if decide (a = d) then <[n := Some c]> (entries_of f) else entries_of f.
Proof. unfold link_file. by repeat case_decide. Qed.

Lemma link_file_kind d n c a f :
  (a = d → kind f = DirectoryKind) → kind (link_file d n c a f) = kind f.
Proof. unfold link_file. repeat case_decide; naive_solver. Qed.


Lemma unlink_file_entries d n c a f :
  entries_of (unlink_file d n c a f)
  = if decide (a = d) then delete n (entries_of f) else entries_of f.
Proof. unfold unlink_file. by repeat case_decide. Qed.

Lemma unlink_file_kind d n c a f :
  (a = d → kind f = DirectoryKind) → kind (unlink_file d n c a f) = kind f.
Proof. unfold unlink_file. repeat case_decide; naive_solver. Qed.

Lemma holds_link (s : FS) (tr : list event) (d c : Z) (n : string) (d' a : Z) (n' : string) :
  is_dir s d →
  holds (mkFS (map_imap (λ a f, Some (link_file d n c a f)) (heap s)) tr) d' n' a
  ↔ (d' = d ∧ n' = n ∧ a = c) ∨ (¬ (d' = d ∧ n' = n) ∧ holds s d' n' a).
Proof.
  intros (fd & Hd & Hk). unfold holds. setoid_rewrite net_lookup. split.
  - intros (f' & Hf' & Hk' & Hn'). apply fmap_Some in Hf' as (f & Hf & ->).
    rewrite link_file_entries in Hn'. rewrite link_file_kind in Hk' by naive_solver.
    case_decide; simplify_eq.
    + destruct (decide (n' = n)) as [->|]; [rewrite lookup_insert_eq in Hn'; naive_solver|].
      rewrite lookup_insert_ne in Hn' by done. right. naive_solver.
    + right. naive_solver.
  - intros [(-> & -> & ->)|(Hne & f & Hf & Hkf & Hn')].
    + exists (link_file d n c d fd). rewrite Hd, link_file_entries, link_file_kind by done.
      rewrite decide_True by done. by rewrite lookup_insert_eq.
    + exists (link_file d n c d' f). rewrite Hf, link_file_entries, link_file_kind by done.
      split_and!; [done..|]. case_decide; [|done]. subst. rewrite lookup_insert_ne; naive_solver.
Qed.

Lemma holds_unlink (s : FS) (tr : list event) (d c : Z) (n : string) (d' a : Z) (n' : string) :
  is_dir s d →
  holds (mkFS (map_imap (λ a f, Some (unlink_file d n c a f)) (heap s)) tr) d' n' a
  ↔ ¬ (d' = d ∧ n' = n) ∧ holds s d' n' a.
Proof.
  intros (fd & Hd & Hk). unfold holds. setoid_rewrite net_lookup. split.
  - intros (f' & Hf' & Hk' & Hn'). apply fmap_Some in Hf' as (f & Hf & ->).
    rewrite unlink_file_entries in Hn'. rewrite unlink_file_kind in Hk' by naive_solver.
    case_decide; simplify_eq.
    + destruct (decide (n' = n)) as [->|]; [by rewrite lookup_delete_eq in Hn'|].
      rewrite lookup_delete_ne in Hn' by done. naive_solver.
    + naive_solver.
  - intros (Hne & f & Hf & Hkf & Hn').
    exists (unlink_file d n c d' f). rewrite Hf, unlink_file_entries, unlink_file_kind by done.
    split_and!; [done..|]. case_decide; [|done]. subst. rewrite lookup_delete_ne; naive_solver.
Qed.

Lemma parent_of_link (s : FS) (tr : list event) (d c : Z) (n : string) (a : Z) :
  live s d → live s a →
  parent_of (mkFS (map_imap (λ a f, Some (link_file d n c a f)) (heap s)) tr) a
  = if decide (a = c) then Some d else parent_of s a.
Proof.
  intros Hd [f Hf]. rewrite net_parent_of. unfold parent_of. rewrite Hf, link_file_parent.
  case_decide; [|done]. simpl. by rewrite decide_True.
Qed.


Lemma is_dir_live s d : is_dir s d → live s d.
Proof. intros (f & Hf & _). by exists f. Qed.

Lemma holds_is_dir s d n c : holds s d n c → is_dir s d.
Proof. intros (f & ? & ? & _). by exists f. Qed.



(** Singly linked states satisfy I1. *)
Lemma linked_I1 (s : FS) : linked s → I1 s.
Proof.
  intros [Hpar _] c Hc. split.
  - intros Hp. destruct (parent_of s c) as [d|] eqn:E; [|done].
    exists d. split; [by apply Hpar|]. intros d' Hd'%Hpar; [congruence|done].
  - intros (d & Hd%Hpar & _); [congruence|done].
Qed.

Lemma entries_live_store (s : FS) (a : Z) (f f' : File) (tr : list event) :
  heap s !! a = Some f →
  (∀ n p, entries_of f' !! n = Some p → ∃ c, p = Some c ∧ live s c) →
  entries_live s → entries_live (mkFS (<[a := f']> (heap s)) tr).
Proof.
  intros Hf Hes Hl d g n p. unfold live. simpl.
  assert (∀ c, is_Some (heap s !! c) → is_Some (<[a:=f']> (heap s) !! c)) as Hmono.
  { intros c. rewrite lookup_insert_is_Some. destruct (decide (a = c)); auto. }
  intros [[<- <-]|[? Hd]]%lookup_insert_Some Hn.
  - destruct (Hes _ _ Hn) as (c & -> & Hc). eauto.
  - destruct (Hl _ _ _ _ Hd Hn) as (c & -> & Hc). eauto.
Qed.

Lemma entries_live_trace (s : FS) (tr : list event) :
  entries_live s → entries_live (mkFS (heap s) tr).
Proof. done. Qed.

Lemma lock_entries_live a s u s' : lock a s = Ok u s' → entries_live s → entries_live s'.
Proof.
  unfold lock. intros H Hl. minv.
  eapply entries_live_store; [done| |done]. intros n p Hn. by eapply Hl.
Qed.

Lemma unlock_entries_live a s u s' : unlock a s = Ok u s' → entries_live s → entries_live s'.
Proof.
  unfold unlock. intros H Hl. minv.
  eapply entries_live_store; [done| |done]. intros n p Hn. by eapply Hl.
Qed.

Lemma setParent_entries_live a q s u s' :
  setParent a q s = Ok u s' → entries_live s → entries_live s'.
Proof.
  unfold setParent. intros H Hl. minv.
  eapply entries_live_store; [done| |done]. intros n p Hn. by eapply Hl.
Qed.

Lemma setDirEntries_entries_live d es s u s' :
  setDirEntries d es s = Ok u s' →
  (∀ n p, es !! n = Some p → ∃ c, p = Some c ∧ live s c) →
  entries_live s → entries_live s'.
Proof. unfold setDirEntries. intros H Hes Hl. minv. by eapply entries_live_store. Qed.

Lemma getDir_entries_live d s es s' :
  getDir d s = Ok es s' → entries_live s →
  s' = s ∧ ∀ n p, es !! n = Some p → ∃ c, p = Some c ∧ live s c.
Proof. unfold getDir. intros H Hl. minv. split; [done|]. intros n p Hn. by eapply Hl. Qed.

Lemma locked_live p s a s' : locked p s = Ok a s' → p = Some a ∧ live s' a.
Proof.
  unfold locked, lock. intros H. minv. split; [done|]. unfold live; simpl.
  rewrite lookup_insert_eq. eauto.
Qed.

Lemma locked_entries_live p s a s' : locked p s = Ok a s' → entries_live s → entries_live s'.
Proof. unfold locked. intros H Hl. minv. by eapply lock_entries_live. Qed.

(** Every entry operation that completes leaves only live, non-null
    children in the entry maps. *)
Lemma setEntry_entries_live d n p s u s' :
  setEntry d n p s = Ok u s' → entries_live s → entries_live s'.
Proof.
  unfold setEntry. intros H Hl.
  apply bind_Ok in H as (c & s1 & Hlock & H).
  pose proof (locked_live _ _ _ _ Hlock) as [-> Hc].
  apply locked_entries_live in Hlock; [|done].
  apply bind_Ok in H as (es & s2 & Hes & H).
  apply getDir_entries_live in Hes as [-> Hes]; [|done].
  apply bind_Ok in H as (? & s3 & Hset & H).
  apply setDirEntries_entries_live in Hset; [|..|done].
  2:{ intros k q [[<- <-]|[? Hk]]%lookup_insert_Some; eauto. }
  apply bind_Ok in H as (? & s4 & ->%log_Ok & H).
  apply bind_Ok in H as (? & s5 & ->%log_Ok & H).
  apply bind_Ok in H as (q & s6 & ->%getParent_state & H).
  apply bind_Ok in H as (? & s7 & [_ ->]%assert_Ok & H).
  apply bind_Ok in H as (? & s8 & Hsp & H).
  apply setParent_entries_live in Hsp; [|done].
  by eapply unlock_entries_live.
Qed.

Lemma unlinkEntry_entries_live d n s u s' :
  unlinkEntry d n s = Ok u s' → entries_live s → entries_live s'.
Proof.
  unfold unlinkEntry. intros H Hl.
  apply bind_Ok in H as (es & s1 & Hes & H).
  apply getDir_entries_live in Hes as [-> Hes]; [|done].
  apply bind_Ok in H as (? & s2 & Hset & H).
  apply bind_Ok in H as (c & s3 & Hlock & H).
  pose proof (locked_live _ _ _ _ Hlock) as [Hc _].
  assert (subscript n es = es) as Hsub.
  { unfold subscript in *. destruct (es !! n) eqn:E; [done|].
    by rewrite lookup_insert_eq in Hc. }
  rewrite Hsub in *.
  apply setDirEntries_entries_live in Hset; [|done..].
  apply locked_entries_live in Hlock; [|done].
  apply bind_Ok in H as (? & s4 & Hsp & H).
  apply setParent_entries_live in Hsp; [|done].
  apply bind_Ok in H as (es' & s5 & Hes' & H).
  apply getDir_entries_live in Hes' as [-> Hes']; [|done].
  apply bind_Ok in H as (? & s6 & Hset' & H).
  apply setDirEntries_entries_live in Hset'; [|..|done].
  2:{ intros k q [_ Hk]%lookup_delete_Some. eauto. }
  apply bind_Ok in H as (? & s7 & ->%log_Ok & H).
  by eapply unlock_entries_live.
Qed.

Lemma run_ops_entries_live os s u s' :
  run_ops os s = Ok u s' → entries_live s → entries_live s'.
Proof.
  revert s. induction os as [|o os IH]; intros s H Hl; simpl in H.
  - by minv.
  - apply bind_Ok in H as (? & s1 & Ho & H). eapply IH; [done|].
    destruct o; simpl in Ho; eauto using setEntry_entries_live, unlinkEntry_entries_live.
Qed.

(** A [setEntry] under a name already bound to another child leaves that
    child with its old parent although no directory holds it any more. *)
Lemma setEntry_displaced (s : FS) (d c c0 : Z) (n : string) :
  linked s → holds s d n c0 → c0 ≠ c → live s c0 → live s c → parent_of s c = None →
  ∃ s', setEntry d n (Some c) s = Ok () s' ∧
        parent_of s' c0 = Some d ∧ (∀ d', ¬ contains s' d' c0) ∧ ¬ I1 s'.
Proof.
  intros [Hpar Huniq] Hh Hne Hc0 Hc Hp. pose proof (holds_is_dir _ _ _ _ Hh) as Hd.
  eexists. split; [by apply setEntry_run|].
  set (s' := mkFS _ _).
  assert (parent_of s' c0 = Some d) as Hp0.
  { subst s'. rewrite parent_of_link by auto using is_dir_live.
    rewrite decide_False by done. apply Hpar; [done|by exists n]. }
  assert (∀ d', ¬ contains s' d' c0) as Hnone.
  { intros d' (n' & Hh'). subst s'. apply holds_link in Hh' as [(_ & _ & ?)|(Hnn & Hh')]; [done| |done].
    assert (d' = d) as ->.
    { assert (parent_of s c0 = Some d') by (apply Hpar; [done|by exists n']).
      assert (parent_of s c0 = Some d) by (apply Hpar; [done|by exists n]). congruence. }
    destruct Hnn. split; [done|]. by eapply Huniq. }
  split_and!; [done|done|].
  intros HI1. destruct (HI1 c0) as [Hex _]; [by apply net_live|].
  destruct Hex as (d' & Hd' & _); [congruence|]. by eapply Hnone.
Qed.

Lemma sample_fs_holds d n c : holds sample_fs d n c ↔ d = 1 ∧ n = "a"%string ∧ c = 2.
Proof.
  unfold holds, sample_fs. simpl. split.
  - intros (f & Hf & Hk & Hn).
    apply lookup_insert_Some in Hf as [[<- <-]|[? Hf]].
    + unfold sample_dir, entries_of in Hn; simpl in Hn.
      apply lookup_singleton_Some in Hn as [<- [= <-]]. done.
    + apply lookup_insert_Some in Hf as [[<- <-]|[? Hf]]; [done|].
      apply lookup_insert_Some in Hf as [[<- <-]|[? Hf]]; done.
  - intros (-> & -> & ->). exists sample_dir. done.
Qed.

Lemma sample_fs_linked : linked sample_fs.
Proof.
  split.
  - intros c d [f Hf]. unfold contains. setoid_rewrite sample_fs_holds.
    unfold parent_of. rewrite Hf. unfold sample_fs in Hf; simpl in Hf.
    apply lookup_insert_Some in Hf as [[<- <-]|[? Hf]]; [naive_solver|].
    apply lookup_insert_Some in Hf as [[<- <-]|[? Hf]].
    { simpl. split; [intros [= <-]; by exists "a"%string|naive_solver]. }
    apply lookup_insert_Some in Hf as [[<- <-]|[? Hf]]; [naive_solver|done].
  - intros c d n n'. rewrite !sample_fs_holds. naive_solver.
Qed.

(** C2. [I1] does not survive a [setEntry] on a name that is already
    bound to another child. In [sample_fs] directory 1 holds node 2 under
    "a" and [I1] holds; after [setEntry 1 "a" 3] no directory holds node 2
    any more, yet its parent still resolves to directory 1. *)
Theorem setEntry_overwrite_breaks_I1 :
  I1 sample_fs ∧
  ∃ s', setEntry 1 "a" (Some 3) sample_fs = Ok () s' ∧
        parent_of s' 2 = Some 1 ∧ (∀ d, ¬ contains s' d 2) ∧ ¬ I1 s'.
Proof.
  split; [apply linked_I1, sample_fs_linked|].
  apply setEntry_displaced.
  - apply sample_fs_linked.
  - by apply sample_fs_holds.
  - done.
  - by eexists.
  - by eexists.
  - done.
Qed.

Lemma setEntry_parented (s : FS) (d c : Z) (n : string) :
  is_dir s d → live s c → parent_of s c ≠ None →
  setEntry d n (Some c) s = AssertFail.
Proof.
  intros (fd & Hd & Hk) [fc Hc] Hp. unfold parent_of in Hp. rewrite Hc in Hp.
  unfold setEntry. destruct (decide (d = c)) as [->|Hne]; simplify_eq.
  - mstep locked_run. mstep getDir_run. mstep setDirEntries_run.
    mstep log_run. mstep log_run. mstep getParent_run. cbn [parent with_payload with_mutex].
    rewrite !resolve_insert_live by (rewrite ?lookup_insert_eq; eauto).
    by rewrite bool_decide_eq_false_2.
  - mstep locked_run. mstep getDir_run. mstep setDirEntries_run.
    mstep log_run. mstep log_run. mstep getParent_run. cbn [parent with_payload with_mutex].
    rewrite !resolve_insert_live
      by (rewrite ?lookup_insert_eq, ?lookup_insert_ne by done; eauto).
    by rewrite bool_decide_eq_false_2.
Qed.

Lemma setEntry_halves (d : Z) (n : string) (p : ptr) (s : FS) :
  setEntry d n p s = (c ← setEntry_store d n p; setEntry_link d c) s.
Proof.
  unfold setEntry, setEntry_store, setEntry_link, mbind, M_bind, mret, M_ret.
  destruct (locked p s) as [c s1| |]; [|done..].
  destruct (getDir d s1) as [es s2| |]; [|done..].
  destruct (setDirEntries d (<[n:=p]> es) s2) as [? s3| |]; [|done..].
  by destruct (log (EStoreEntry d n p) s3).
Qed.

Lemma setEntry_store_run (s : FS) (d c : Z) (n : string) :
  is_dir s d → live s c →
  ∃ s1, setEntry_store d n (Some c) s = Ok c s1 ∧ holds s1 d n c ∧
        trace s1 = trace s ++ [ELock c; EStoreEntry d n (Some c)].
Proof.
  intros (fd & Hd & Hk) [fc Hc]. unfold setEntry_store.
  destruct (decide (d = c)) as [->|Hne]; simplify_eq.
  - mstep locked_run. mstep getDir_run. mstep setDirEntries_run. mstep log_run.
    eexists. split; [done|]. split; [|by rewrite <- app_assoc].
    eexists. split; [apply lookup_insert_eq|]. split; [done|]. apply lookup_insert_eq.
  - mstep locked_run. mstep getDir_run. mstep setDirEntries_run. mstep log_run.
    eexists. split; [done|]. split; [|by rewrite <- app_assoc].
    eexists. split; [apply lookup_insert_eq|]. split; [done|]. apply lookup_insert_eq.
Qed.

(** C1, as corrected. [setEntry] on a directory [d] with a live,
    parentless child [c] completes; afterwards [d] holds [c] under the
    name and the parent of [c] resolves to [d]; both stores happen between
    the lock and the unlock of [c]. The entry is stored first and the
    check that [c] has no parent comes after it, before the parent is set.
    So with a child that still has a parent the run ends in the failed
    assertion, and at that point the statements before the assertion have
    completed: [d] already holds [c] under the name. *)
Theorem setEntry_links_child (s : FS) (d c : Z) (n : string) :
  is_dir s d → live s c →
  (parent_of s c = None →
     ∃ s', setEntry d n (Some c) s = Ok () s' ∧
           holds s' d n c ∧ parent_of s' c = Some d ∧
           trace s' = trace s ++ [ELock c; EStoreEntry d n (Some c); EAssertNoParent c;
                                  ESetParent c (Some d); EUnlock c]) ∧
  (parent_of s c ≠ None →
     setEntry d n (Some c) s = AssertFail ∧
     ∃ s1, setEntry_store d n (Some c) s = Ok c s1 ∧ holds s1 d n c ∧
           trace s1 = trace s ++ [ELock c; EStoreEntry d n (Some c)] ∧
           setEntry_link d c s1 = AssertFail).
Proof.
  intros Hd Hc. split.
  - intros Hp. eexists. split; [by apply setEntry_run|]. split_and!.
    + apply holds_link; auto.
    + rewrite parent_of_link by auto using is_dir_live. by rewrite decide_True.
    + done.
  - intros Hp. pose proof (setEntry_parented s d c n Hd Hc Hp) as Hfail.
    split; [done|].
    destruct (setEntry_store_run s d c n Hd Hc) as (s1 & Hs1 & Hh & Htr).
    exists s1. split_and!; [done..|].
    rewrite setEntry_halves in Hfail. by rewrite (bind_run _ _ _ _ _ Hs1) in Hfail.
Qed.

Lemma sample_fs_live_3 : live sample_fs 3.
Proof. by eexists. Qed.

Lemma setEntry_links_child_witness :
  ∃ s', setEntry 1 "b" (Some 3) sample_fs = Ok () s' ∧
        holds s' 1 "b" 3 ∧ parent_of s' 3 = Some 1 ∧
        trace s' = trace sample_fs ++ [ELock 3; EStoreEntry 1 "b" (Some 3); EAssertNoParent 3;
                                       ESetParent 3 (Some 1); EUnlock 3].
Proof.
  apply (proj1 (setEntry_links_child sample_fs 1 3 "b" sample_fs_is_dir sample_fs_live_3)).
  reflexivity.
Defined.

(** The order that C1 stated does not hold. In the completed run that
    enters node 3 under "b" the entry is stored before the assertion is
    met; and when node 2, which has a parent, is entered under "b", the
    directory already holds it at the moment the assertion fails. *)
Lemma setEntry_stores_before_assert :
  (∃ s', setEntry 1 "b" (Some 3) sample_fs = Ok () s' ∧
         asserted_before_linking (trace s') = false) ∧
  (∃ s1, setEntry_store 1 "b" (Some 2) sample_fs = Ok 2 s1 ∧ holds s1 1 "b" 2 ∧
         setEntry_link 1 2 s1 = AssertFail).
Proof.
  split.
  - eexists. split.
    + apply setEntry_run; [apply sample_fs_is_dir|apply sample_fs_live_3|reflexivity].
    + reflexivity.
  - assert (live sample_fs 2) as Hl by (by eexists).
    destruct (setEntry_store_run sample_fs 1 2 "b" sample_fs_is_dir Hl) as (s1 & Hs1 & Hh & _).
    exists s1. split_and!; [done..|].
    assert (setEntry 1 "b" (Some 2) sample_fs = AssertFail) as Hf
      by (by apply setEntry_parented; [apply sample_fs_is_dir|..]).
    rewrite setEntry_halves in Hf. by rewrite (bind_run _ _ _ _ _ Hs1) in Hf.
Qed.

Lemma sample_fs_entries_live : entries_live sample_fs.
Proof.
  intros d f n p Hf Hn. assert (holds sample_fs d n 2 ∧ p = Some 2) as [_ ->].
  { unfold sample_fs in Hf; simpl in Hf.
    apply lookup_insert_Some in Hf as [[<- <-]|[? Hf]].
    - unfold sample_dir, entries_of in Hn; simpl in Hn.
      apply lookup_singleton_Some in Hn as [<- <-]. split; [|done]. by apply sample_fs_holds.
    - apply lookup_insert_Some in Hf as [[<- <-]|[? Hf]]; [done|].
      apply lookup_insert_Some in Hf as [[<- <-]|[? Hf]]; done. }
  exists 2. split; [done|]. by eexists.
Qed.


Lemma getIno_stable_unique_witness :
  (∃ i, getIno 8 2 sample_fs = Ok i sample_fs
        ∧ getIno 8 2 (final_state (run_ops sample_ops sample_fs))
          = Ok i (final_state (run_ops sample_ops sample_fs))) ∧
  (2 ≠ 3 → ∀ i j, getIno 8 2 sample_fs = Ok i sample_fs →
                  getIno 8 3 sample_fs = Ok j sample_fs → i ≠ j).
Proof.
  apply (getIno_stable_unique 4 8 sample_fs (final_state (run_ops sample_ops sample_fs)) 2 3).
  - lia.
  - by eexists.
  - by eexists.
  - unfold addressable. lia.
  - unfold addressable. lia.
Defined.

Lemma getName_first_matching_name_witness :
  ∃ name, getName 1 (Some 2) sample_aliases = Ok name sample_aliases ∧
    (∀ n, entries_of sample_aliases_dir !! n = Some (Some 2) →
          entries_of sample_aliases_dir !! name = Some (Some 2) ∧ (name ≤ n)%string) ∧
    ((∀ n, entries_of sample_aliases_dir !! n ≠ Some (Some 2)) → name = ""%string).
Proof.
  apply (getName_first_matching_name sample_aliases 1 sample_aliases_dir (Some 2));
    reflexivity.
Defined.

Lemma split_slash_nonempty (cur s : string) : cur ≠ EmptyString → split_slash cur s ≠ [].
Proof.
  revert cur. induction s as [|c s IH]; intros cur Hcur; simpl.
  - by destruct cur.
  - destruct (Ascii.eqb c "/"); [by destruct cur|]. by apply IH.
Qed.

Lemma splitPath_nil (pathname : string) : splitPath pathname = [] ↔ pathname = EmptyString.
Proof.
  split; [|by intros ->]. destruct pathname as [|c s]; [done|]. simpl.
  destruct (Ascii.eqb c "/"); [done|]. intros H. by apply split_slash_nonempty in H.
Qed.

Lemma walkDirs_no_forbidden (h : gmap Z File) (curr : Z) (parts : list string) :
  walkDirs h curr parts None ≠ inl EINVAL.
Proof.
  revert curr. induction parts as [|n parts IH]; intros curr; simpl; [done|].
  destruct (getEntry h curr n) as [child|]; [|done].
  destruct (decide (None = Some child)); [done|].
  destruct (h !! child) as [f|]; [|done]. by destruct (decide (kind f = DirectoryKind)).
Qed.

Lemma getParsedPath_EINVAL (h : gmap Z File) (root cwd : Z) (pathParts : list string) :
  getParsedPath h root cwd pathParts None = inl EINVAL ↔ pathParts = [].
Proof.
  split; [|by intros ->]. destruct pathParts as [|first rest]; [done|].
  unfold getParsedPath.
  destruct (if decide (first = "/"%string) then rest else first :: rest) as [|x rel]; [done|].
  destruct (walkDirs _ _ _ _) as [e|dir] eqn:E; [|done].
  intros [= ->]. by apply walkDirs_no_forbidden in E.
Qed.

(** C6. Modelled from the spec's resolver: the empty pathname fails with
    EINVAL; it is the only pathname without components, and without a
    forbidden ancestor it is the only pathname that fails with EINVAL. *)
Theorem resolve_empty_path_EINVAL (h : gmap Z File) (root cwd : Z) (forbiddenAncestor : ptr) :
  resolve_path h root cwd "" forbiddenAncestor = inl EINVAL ∧
  (∀ pathname, splitPath pathname = [] ↔ pathname = ""%string) ∧
  (∀ pathname, resolve_path h root cwd pathname None = inl EINVAL ↔ pathname = ""%string).
Proof.
  split_and!; [done|apply splitPath_nil|].
  intros pathname. unfold resolve_path. by rewrite getParsedPath_EINVAL, splitPath_nil.
Qed.

(** The scenarios of the open/close test on its tree. *)
Example resolve_test_scenarios :
  resolve_path test_heap 1 1 "/dev/stdout/" None = inr (mkParsedPath (Some 2) (Some 4)) ∧
  resolve_path test_heap 1 1 "/dev/stdout" None = inr (mkParsedPath (Some 2) (Some 4)) ∧
  resolve_path test_heap 1 1 "/foo" None = inr (mkParsedPath (Some 1) None) ∧
  resolve_path test_heap 1 1 "/dev/stdout/foo" None = inl ENOTDIR ∧
  resolve_path test_heap 1 1 "/" None = inr (mkParsedPath None (Some 1)) ∧
  resolve_path test_heap 1 1 "" None = inl EINVAL.
Proof. vm_compute. done. Qed.

(** ** Further properties of the handle operations *)

Lemma bind_fail {A B} (m : M A) (f : A → M B) s :
  (m s = AssertFail → (m ≫= f) s = AssertFail) ∧
  (m s = NullDeref → (m ≫= f) s = NullDeref).
Proof. unfold mbind, M_bind. split; by intros ->. Qed.

Lemma getDir_not_dir d s f :
  heap s !! d = Some f → kind f ≠ DirectoryKind → getDir d s = AssertFail.
Proof.
  intros H Hk. unfold getDir. rewrite (bind_run _ _ _ _ _ (load_run _ _ _ H)).
  by rewrite bool_decide_eq_false_2.
Qed.

Lemma locked_dead c s : ¬ live s c → locked (Some c) s = NullDeref.
Proof. intros Hc. unfold locked, deref, mbind, M_bind. by rewrite decide_False. Qed.

Lemma setEntry_not_dir (s : FS) (d c : Z) (fd : File) (n : string) :
  heap s !! d = Some fd → kind fd ≠ DirectoryKind → live s c →
  setEntry d n (Some c) s = AssertFail.
Proof.
  intros Hd Hk [fc Hc]. unfold setEntry. mstep locked_run.
  apply bind_fail. destruct (decide (d = c)) as [->|Hne]; simplify_eq.
  - eapply getDir_not_dir; [solve_lookup|done].
  - eapply getDir_not_dir; [solve_lookup|done].
Qed.



(** X1. How [setEntry] ends on a handle of the live node [d]. It
    completes exactly when the inserted pointer owns a live node without
    a parent and [d] is a directory. It fails an assertion when the
    pointer owns a live node but [d] is not a directory (the cast in
    [getDir]) or the node has a parent. It dereferences null when the
    pointer is null (or owns no live node). *)
Theorem setEntry_outcome (s : FS) (d : Z) (fd : File) (n : string) (p : ptr) :
  heap s !! d = Some fd →
  match setEntry d n p s with
  | Ok _ _ => ∃ c, p = Some c ∧ live s c ∧ kind fd = DirectoryKind ∧ parent_of s c = None
  | AssertFail =>
      ∃ c, p = Some c ∧ live s c ∧ (kind fd ≠ DirectoryKind ∨ parent_of s c ≠ None)
  | NullDeref => p = None ∨ ∃ c, p = Some c ∧ ¬ live s c
  end.
Proof.
  intros Hd. destruct p as [c|]; [|by left].
  destruct (decide (live s c)) as [Hc|Hc].
  2:{ unfold setEntry. rewrite (proj2 (bind_fail _ _ _) (locked_dead _ _ Hc)). eauto. }
  destruct (decide (kind fd = DirectoryKind)) as [Hk|Hk].
  2:{ erewrite setEntry_not_dir by done. eauto 10. }
  destruct (decide (parent_of s c = None)) as [Hp|Hp].
  - rewrite setEntry_run by (done || by exists fd). eauto 10.
  - rewrite setEntry_parented by (done || by exists fd). eauto 10.
Qed.

Lemma sample_fs_dir : heap sample_fs !! 1 = Some sample_dir.
Proof. reflexivity. Qed.

Lemma setEntry_outcome_witness :
  match setEntry 1 "a" (Some 2) sample_fs with
  | Ok _ _ =>
      ∃ c, Some 2 = Some c ∧ live sample_fs c ∧
           kind sample_dir = DirectoryKind ∧ parent_of sample_fs c = None
  | AssertFail =>
      ∃ c, Some 2 = Some c ∧ live sample_fs c ∧
           (kind sample_dir ≠ DirectoryKind ∨ parent_of sample_fs c ≠ None)
  | NullDeref => Some 2 = None ∨ ∃ c, Some 2 = Some c ∧ ¬ live sample_fs c
  end.
Proof. apply (setEntry_outcome sample_fs 1 sample_dir "a" (Some 2)). reflexivity. Defined.




Lemma unlink_lookup s tr d n c a :
  heap (mkFS (map_imap (λ a f, Some (unlink_file d n c a f)) (heap s)) tr) !! a
  = unlink_file d n c a <$> heap s !! a.
Proof. apply net_lookup. Qed.






Lemma sample_fs_live_2 : live sample_fs 2.
Proof. by eexists. Qed.







Lemma getName_run d p s f :
  heap s !! d = Some f → kind f = DirectoryKind →
  getName d p s = Ok (first_named p (ordered (entries_of f))) s.
Proof. intros Hd Hk. unfold getName. by mstep getDir_run. Qed.

Lemma getEntries_run d s f :
  heap s !! d = Some f → kind f = DirectoryKind →
  getEntries d s = Ok (ordered (entries_of f)) s.
Proof. intros Hd Hk. unfold getEntries. by mstep getDir_run. Qed.

Lemma getNumEntries_run d s f :
  heap s !! d = Some f → kind f = DirectoryKind →
  getNumEntries d s = Ok (Z.of_nat (size (entries_of f))) s.
Proof. intros Hd Hk. unfold getNumEntries. by mstep getDir_run. Qed.

(** The name [getName] answers for a child that the directory holds
    under one name only, and for one that it does not hold. *)
Lemma getName_unique (s : FS) (d c : Z) (n : string) :
  holds s d n c → (∀ n', holds s d n' c → n' = n) → getName d (Some c) s = Ok n s.
Proof.
  intros (fd & Hd & Hk & Hn) Huniq. rewrite (getName_run _ _ _ _ Hd Hk). f_equal.
  apply Huniq. exists fd. split_and!; [done..|]. by eapply first_named_found.
Qed.

Lemma getName_absent (s : FS) (d c : Z) :
  is_dir s d → (∀ n, ¬ holds s d n c) → getName d (Some c) s = Ok ""%string s.
Proof.
  intros (fd & Hd & Hk) Hno. rewrite (getName_run _ _ _ _ Hd Hk). f_equal.
  apply first_named_missing. intros n Hn. apply (Hno n). by exists fd.
Qed.

(** X8. [getName] follows the entry operations. In a state in which
    every node is singly linked, after [setEntry] has entered the node
    [c] under the name [n], [getName] answers [n] for [c]; after
    [unlinkEntry] has removed the name that held [c], it answers the
    empty string. *)
Theorem getName_follows_entries (s : FS) (d c : Z) (n : string) :
  linked s → is_dir s d → live s c →
  (parent_of s c = None →
     ∃ s', setEntry d n (Some c) s = Ok () s' ∧ getName d (Some c) s' = Ok n s') ∧
  (holds s d n c →
     ∃ s', unlinkEntry d n s = Ok () s' ∧ getName d (Some c) s' = Ok ""%string s').
Proof.
  intros [Hpar Huniq] Hd Hc. split.
  - intros Hp. eexists. split; [by apply setEntry_run|].
    assert (∀ n', ¬ holds s d n' c) as Hno.
    { intros n' Hh. assert (parent_of s c = Some d) by (apply Hpar; [done|by exists n']).
      congruence. }
    apply getName_unique.
    + apply holds_link; auto.
    + intros n' [(_ & -> & _)|(_ & Hh)]%holds_link; [done| |done]. by destruct (Hno n').
  - intros Hh. destruct (Hh) as (fd & Hfd & Hk & Hn).
    eexists. split; [by eapply unlinkEntry_run|].
    apply getName_absent.
    + destruct Hd as (f & Hf & Hkf). eexists. rewrite unlink_lookup, Hf. split; [done|].
      by rewrite unlink_file_kind.
    + intros n' [Hne Hh']%holds_unlink; [|done]. destruct Hne. split; [done|].
      by eapply Huniq.
Qed.

Lemma getName_follows_entries_witness :
  (parent_of sample_fs 3 = None →
     ∃ s', setEntry 1 "b" (Some 3) sample_fs = Ok () s' ∧ getName 1 (Some 3) s' = Ok "b"%string s') ∧
  (holds sample_fs 1 "b" 3 →
     ∃ s', unlinkEntry 1 "b" sample_fs = Ok () s' ∧ getName 1 (Some 3) s' = Ok ""%string s').
Proof.
  apply (getName_follows_entries sample_fs 1 3 "b" sample_fs_linked sample_fs_is_dir
           sample_fs_live_3).
Defined.

Lemma ordered_length (es : gmap string ptr) : length (ordered es) = size es.
Proof. unfold ordered. by rewrite merge_sort_Permutation, length_map_to_list. Qed.

Lemma ordered_NoDup (es : gmap string ptr) : NoDup (ordered es).*1.
Proof. unfold ordered. rewrite merge_sort_Permutation. apply NoDup_fst_map_to_list. Qed.

(** X9. [getEntries] on a directory returns every binding of the entry
    map and nothing else, in ascending order of the names and each name
    once; its length is what [getNumEntries] answers. Neither changes the
    state. *)
Theorem getEntries_sorted_listing (s : FS) (d : Z) (fd : File) :
  heap s !! d = Some fd → kind fd = DirectoryKind →
  ∃ l, getEntries d s = Ok l s ∧
       (∀ n p, (n, p) ∈ l ↔ entries_of fd !! n = Some p) ∧
       StronglySorted entry_le l ∧ NoDup l.*1 ∧
       getNumEntries d s = Ok (Z.of_nat (length l)) s.
Proof.
  intros Hd Hk. exists (ordered (entries_of fd)). split_and!.
  - by apply getEntries_run.
  - intros n p. apply elem_of_ordered.
  - apply ordered_sorted.
  - apply ordered_NoDup.
  - rewrite ordered_length. by apply getNumEntries_run.
Qed.

Lemma getEntries_sorted_listing_witness :
  ∃ l, getEntries 1 sample_aliases = Ok l sample_aliases ∧
       (∀ n p, (n, p) ∈ l ↔ entries_of sample_aliases_dir !! n = Some p) ∧
       StronglySorted entry_le l ∧ NoDup l.*1 ∧
       getNumEntries 1 sample_aliases = Ok (Z.of_nat (length l)) sample_aliases.
Proof. apply (getEntries_sorted_listing sample_aliases 1 sample_aliases_dir); reflexivity. Defined.



(** X11. No completed sequence of entry operations leaves a null pointer
    in an entry map: started from maps whose entries are live nodes, every
    pair that [getEntries] returns afterwards carries a live node, and
    [getName] of the null pointer answers the empty string. (The
    subscript of [unlinkEntry] does bind an absent name to null, but that
    run ends in the null dereference.) *)
Theorem completed_operations_leave_no_null_entry (os : list dir_op) (s s' : FS) (d : Z) :
  entries_live s → run_ops os s = Ok () s' → is_dir s' d →
  (∃ l, getEntries d s' = Ok l s' ∧ ∀ n p, (n, p) ∈ l → ∃ c, p = Some c ∧ live s' c) ∧
  getName d None s' = Ok ""%string s'.
Proof.
  intros Hl Hrun (fd & Hd & Hk).
  pose proof (run_ops_entries_live _ _ _ _ Hrun Hl) as Hl'. split.
  - eexists. split; [by apply getEntries_run|].
    intros n p Hn%elem_of_ordered. by eapply Hl'.
  - rewrite (getName_run _ _ _ _ Hd Hk). f_equal. apply first_named_missing.
    intros n Hn. destruct (Hl' _ _ _ _ Hd Hn) as (c & ? & _). done.
Qed.

Lemma completed_operations_leave_no_null_entry_witness :
  (∃ l, getEntries 1 (final_state (run_ops sample_ops sample_fs))
        = Ok l (final_state (run_ops sample_ops sample_fs)) ∧
        ∀ n p, (n, p) ∈ l →
               ∃ c, p = Some c ∧ live (final_state (run_ops sample_ops sample_fs)) c) ∧
  getName 1 None (final_state (run_ops sample_ops sample_fs))
  = Ok ""%string (final_state (run_ops sample_ops sample_fs)).
Proof.
  apply (completed_operations_leave_no_null_entry sample_ops sample_fs).
  - apply sample_fs_entries_live.
  - vm_compute. reflexivity.
  - eexists. split; vm_compute; reflexivity.
Defined.

(** X24. The three queries of a directory handle read only. On a
    directory [getName], [getNumEntries] and [getEntries] complete and
    leave the state as it is; on a handle of a node that is not a
    directory each fails the assertion of the cast in [getDir]. *)
Theorem directory_queries_outcome (s : FS) (d : Z) (fd : File) (target : ptr) :
  heap s !! d = Some fd →
  (kind fd = DirectoryKind →
     (∃ n, getName d target s = Ok n s) ∧ (∃ k, getNumEntries d s = Ok k s) ∧
     (∃ l, getEntries d s = Ok l s)) ∧
  (kind fd ≠ DirectoryKind →
     getName d target s = AssertFail ∧ getNumEntries d s = AssertFail ∧
     getEntries d s = AssertFail).
Proof.
  intros Hd. split; intros Hk.
  - split_and!; eexists;
      [by apply getName_run|by apply getNumEntries_run|by apply getEntries_run].
  - unfold getName, getNumEntries, getEntries.
    split_and!; apply bind_fail; by eapply getDir_not_dir.
Qed.

Lemma directory_queries_outcome_witness :
  (kind (with_parent (Some 1) (DataFile_new 420 NullBackend 5)) = DirectoryKind →
     (∃ n, getName 2 (Some 3) sample_fs = Ok n sample_fs) ∧
     (∃ k, getNumEntries 2 sample_fs = Ok k sample_fs) ∧
     (∃ l, getEntries 2 sample_fs = Ok l sample_fs)) ∧
  (kind (with_parent (Some 1) (DataFile_new 420 NullBackend 5)) ≠ DirectoryKind →
     getName 2 (Some 3) sample_fs = AssertFail ∧ getNumEntries 2 sample_fs = AssertFail ∧
     getEntries 2 sample_fs = AssertFail).
Proof.
  apply (directory_queries_outcome sample_fs 2
           (with_parent (Some 1) (DataFile_new 420 NullBackend 5)) (Some 3)).
  reflexivity.
Defined.

(** X12. [cast] and [dynCast] agree with [is]: on a live node, where
    [is<T>] is true both return the node, and where it is false [dynCast]
    returns the null pointer and [cast] fails its assertion. None of the
    three changes the state. *)
Theorem cast_agrees_with_dynCast (k : FileKind) (s : FS) (a : Z) :
  live s a →
  ∃ b, File_is k a s = Ok b s ∧
       dynCast k a s = Ok (if b then Some a else None) s ∧
       cast k a s = (if b then Ok a s else AssertFail).
Proof.
  intros [f Hf]. exists (bool_decide (kind f = k)).
  unfold File_is, dynCast, cast. rewrite !(bind_run _ _ _ _ _ (load_run _ _ _ Hf)).
  split_and!; [done..|]. by destruct (bool_decide _).
Qed.

Lemma cast_agrees_with_dynCast_witness :
  ∃ b, File_is DirectoryKind 2 sample_fs = Ok b sample_fs ∧
       dynCast DirectoryKind 2 sample_fs = Ok (if b then Some 2 else None) sample_fs ∧
       cast DirectoryKind 2 sample_fs = (if b then Ok 2 sample_fs else AssertFail).
Proof. apply (cast_agrees_with_dynCast DirectoryKind sample_fs 2 sample_fs_live_2). Defined.

(** X13. [maybeLocked] never waits. It returns a handle exactly when the
    mutex is free or owned by the calling thread, that is when [locked]
    would not wait, and then leaves the mutex as [locked] does: locked
    once more by the caller, the lock of the probing handle released.
    When it returns nothing the mutex is as before. *)
Theorem maybeLocked_never_blocks (t : nat) (m : Locking.rmutex) :
  ∃ ok m', Locking.maybeLocked t m = Some (ok, m') ∧
    (ok = true ↔ Locking.owner m = None ∨ Locking.owner m = Some t) ∧
    (if ok then Locking.locked t m = Some m'
     else Locking.locked t m = None ∧ m' = m).
Proof.
  destruct m as [[o|] n]; unfold Locking.maybeLocked, Locking.locked, Locking.lock,
    Locking.try_lock; simpl.
  - destruct (decide (o = t)) as [->|Hne]; simpl.
    + rewrite decide_True by done. simpl. eexists _, _. split_and!; [done|naive_solver|done].
    + eexists _, _. split_and!; [done|naive_solver|done].
  - rewrite decide_True by done. simpl. eexists _, _. split_and!; [done|naive_solver|done].
Qed.

(** ** The SyncToAsync bridge *)

Import SyncToAsync.

Lemma lookup_set_ipc (l : list invoker_pc) (i j : nat) (p q r : invoker_pc) :
  l !! i = Some p →
  <[i := q]> l !! j = Some r ↔ (j = i ∧ r = q) ∨ (j ≠ i ∧ l !! j = Some r).
Proof.
  intros Hi. destruct (decide (i = j)) as [->|Hne].
  - rewrite list_lookup_insert_eq by (by eapply lookup_lt_Some). naive_solver.
  - rewrite list_lookup_insert_ne by done. naive_solver.
Qed.

Lemma count_submitted_insert (l : list invoker_pc) (i : nat) (p q : invoker_pc) :
  l !! i = Some p →
  (count_submitted (<[i := q]> l) + (if submitted p then 1 else 0)
   = count_submitted l + (if submitted q then 1 else 0))%nat.
Proof.
  unfold count_submitted. revert i. induction l as [|x l IH]; intros i Hi; [done|].
  destruct i as [|i]; simplify_eq/=; [lia|]. specialize (IH _ Hi). lia.
Qed.

Lemma count_submitted_wake (l : list invoker_pc) :
  count_submitted (wake_invoker <$> l) = count_submitted l.
Proof.
  unfold count_submitted. induction l as [|x l IH]; [done|].
  rewrite fmap_cons. cbn [sum_list_with]. rewrite IH. by destruct x.
Qed.

(** The possible outcomes of one step. *)
Lemma notify_one_cases pick s s' :
  notify_one pick s = Some s' → s' = wake pick s ∨ s' = s.
Proof. unfold notify_one. repeat case_match; naive_solver. Qed.

Ltac rw_known :=
  repeat match goal with
  | H : mutex ?s = _ |- _ => rewrite H in *
  | H : state ?s = _ |- _ => rewrite H in *
  | H : cpc ?s = _ |- _ => rewrite H in *
  | H : wpc ?s = _ |- _ => rewrite H in *
  | H : dpc ?s = _ |- _ => rewrite H in *
  end.

Lemma release_notify_one_cases pick s s' :
  release <$> notify_one pick s = Some s' → s' = wake pick (release s) ∨ s' = release s.
Proof.
  intros (s1 & [->| ->]%notify_one_cases & ->)%fmap_Some; [left|by right].
  unfold wake. destruct pick; try done. cbn. by destruct (ipcs s !! i).
Qed.

Lemma set_wpc_WIter_notify_all s :
  set_wpc WIter (notify_all s) = notify_all (set_wpc WIter s).
Proof. done. Qed.

(** Case analysis of a step: the thread, its program point, the tests. *)
Ltac step_cases H :=
  unfold step in H;
  match type of H with
  | match failed ?s with _ => _ end = _ => destruct (failed s) eqn:?; [discriminate H|]
  end;
  match type of H with
  | match ?l with _ => _ end = _ => destruct l as [[| |?i|] ?pick|?t]
  end;
  [ unfold step_ctor, acquire in H
  | unfold step_worker, acquire, resume in H
  | unfold step_invoker, acquire in H
  | unfold step_dtor, acquire in H
  | ];
  repeat case_match; simplify_eq;
  try match goal with
      | H : notify_one _ _ = Some _ |- _ => apply notify_one_cases in H as [->| ->]
      | H : release <$> notify_one _ _ = Some _ |- _ =>
          apply release_notify_one_cases in H as [->| ->]
      end;
  rewrite ?set_wpc_WIter_notify_all.

Lemma holds_wake_ctor p : holds_ctor (wake_ctor p) = holds_ctor p.
Proof. by destruct p. Qed.
Lemma holds_wake_worker p : holds_worker (wake_worker p) = holds_worker p.
Proof. by destruct p. Qed.
Lemma holds_wake_invoker p : holds_invoker (wake_invoker p) = holds_invoker p.
Proof. by destruct p. Qed.

Lemma mutex_ok_notify_all s : mutex_ok s → mutex_ok (notify_all s).
Proof.
  intros [Hc Hw Hd Hi]. split; unfold notify_all; cbn;
    rewrite ?holds_wake_ctor, ?holds_wake_worker; try done.
  intros i. rewrite list_lookup_fmap, <- Hi.
  destruct (ipcs s !! i); cbn; by rewrite ?holds_wake_invoker.
Qed.

Lemma mutex_ok_wake t s : mutex_ok s → mutex_ok (wake t s).
Proof.
  intros [Hc Hw Hd Hi]. unfold wake. destruct t as [| |j|]; try done.
  - split; cbn; rewrite ?holds_wake_ctor; done.
  - split; cbn; rewrite ?holds_wake_worker; done.
  - destruct (ipcs s !! j) as [p|] eqn:Hj; [|done]. split; cbn; try done.
    intros i. rewrite <- Hi. destruct (decide (j = i)) as [->|].
    + rewrite list_lookup_insert_eq by (by eapply lookup_lt_Some).
      rewrite Hj. cbn. by rewrite holds_wake_invoker.
    + by rewrite list_lookup_insert_ne.
Qed.

Ltac wake_frame lem_all lem_wake :=
  first [apply lem_all | apply lem_wake | idtac].

Lemma from_option_insert_holds (l : list invoker_pc) (i j : nat) (p q : invoker_pc) :
  l !! i = Some p →
  from_option holds_invoker false (<[i := q]> l !! j)
  = if decide (j = i) then holds_invoker q else from_option holds_invoker false (l !! j).
Proof.
  intros Hi. case_decide as Hji; [subst j|].
  - by rewrite list_lookup_insert_eq by (by eapply lookup_lt_Some).
  - by rewrite list_lookup_insert_ne.
Qed.

Ltac learn_owner :=
  repeat match goal with
  | H : true = true ↔ mutex ?s = ?m |- _ =>
      let Hm := fresh "Hm" in
      assert (mutex s = m) as Hm by (by apply H); clear H; rewrite Hm in *
  end.

Lemma mutex_ok_step l s s' : mutex_ok s → step l s = Some s' → failed s' = None → mutex_ok s'.
Proof.
  intros HS Hstep Hf. step_cases Hstep; try discriminate Hf.
  all: wake_frame mutex_ok_notify_all mutex_ok_wake.
  all: destruct HS as [Hc Hw Hd Hi].
  all: try match goal with
           | H : ipcs _ !! ?i = Some _ |- _ => pose proof (Hi i) as Hii; rewrite H in Hii
           end.
  all: cbn in *; rw_known; cbn in *; learn_owner.
  all: split; cbn in *; rw_known; cbn in *.
  all: try (intros j; specialize (Hi j);
            try (erewrite from_option_insert_holds by eassumption;
                 destruct (decide (j = _)); subst);
            cbn in *).
  all: try solve [intuition congruence].
Qed.

Lemma wake_ctor_CDone p : wake_ctor p = CDone ↔ p = CDone.
Proof. by destruct p. Qed.
Lemma starting_wake_worker p : starting (wake_worker p) = starting p.
Proof. by destruct p. Qed.
Lemma wake_worker_WUnborn p : wake_worker p = WUnborn ↔ p = WUnborn.
Proof. by destruct p. Qed.
Lemma wake_ctor_early p :
  (wake_ctor p = CLock ∨ wake_ctor p = CSpawn) ↔ (p = CLock ∨ p = CSpawn).
Proof. destruct p; naive_solver. Qed.

Lemma startup_ok_notify_all s : startup_ok s → startup_ok (notify_all s).
Proof.
  intros [Hf Hs Hu]. split; unfold notify_all; cbn.
  - rewrite wake_ctor_CDone. intros [Hall ->]%Hf. split; [|done].
    apply Forall_fmap. eapply Forall_impl; [done|]. by intros ? ->.
  - rewrite starting_wake_worker, wake_ctor_CDone. done.
  - by rewrite wake_worker_WUnborn, wake_ctor_early.
Qed.

Lemma Forall_IStart_insert (l : list invoker_pc) i :
  Forall (λ p, p = IStart) l → Forall (λ p, p = IStart) (<[i := IStart]> l).
Proof. intros. by apply Forall_insert. Qed.

Lemma startup_ok_wake t s : startup_ok s → startup_ok (wake t s).
Proof.
  intros [Hf Hs Hu]. unfold wake. destruct t as [| |j|]; try done.
  - split; cbn; rewrite ?wake_ctor_CDone, ?wake_ctor_early; done.
  - split; cbn; rewrite ?starting_wake_worker, ?wake_worker_WUnborn; done.
  - destruct (ipcs s !! j) as [p|] eqn:Hj; [|done]. split; cbn; try done.
    intros [Hall ->]%Hf. split; [|done].
    rewrite (Forall_lookup_1 _ _ _ _ Hall Hj). by apply Forall_IStart_insert.
Qed.

(** An invoker that has left [IStart] shows that the constructor is done. *)
Lemma startup_ok_started s i p :
  startup_ok s → ipcs s !! i = Some p → p ≠ IStart → cpc s = CDone.
Proof.
  intros [Hf _ _] Hi Hp. destruct (decide (cpc s = CDone)) as [|Hc]; [done|].
  destruct (Hf Hc) as [Hall _]. by destruct (Hp (Forall_lookup_1 _ _ _ _ Hall Hi)).
Qed.

Lemma startup_ok_step l s s' :
  startup_ok s → step l s = Some s' → failed s' = None → startup_ok s'.
Proof.
  intros HS Hstep Hf. step_cases Hstep; try discriminate Hf.
  all: wake_frame startup_ok_notify_all startup_ok_wake.
  all: try match goal with
           | H : ipcs _ !! ?i = Some ?p |- _ =>
               assert (p = IStart ∨ cpc s = CDone) as [?|Hdone]
                 by (destruct (decide (p = IStart)); eauto using startup_ok_started);
               [try discriminate|]
           end.
  all: destruct HS as [Hfr Hst Hun].
  all: split; cbn in *; rw_known; cbn in *.
  all: try solve [intuition congruence].
  assert (wpc s = WUnborn) as Hwu by (apply Hun; auto).
  rewrite Hwu in Hst. intuition congruence.
Qed.

Lemma state_ok_notify_all s : state_ok s → state_ok (notify_all s).
Proof.
  intros [Hsub Hrun Hgo Hwork]. split; unfold notify_all; cbn; try done.
  - intros i (p & Hp & Hi)%list_lookup_fmap_Some. destruct p; try done. eauto.
  - intros w Hw. apply Hrun. by destruct (wpc s).
  - intros Hw. apply Hgo. by destruct (wpc s).
Qed.

Lemma state_ok_wake t s : state_ok s → state_ok (wake t s).
Proof.
  intros [Hsub Hrun Hgo Hwork]. unfold wake. destruct t as [| |j|]; try done.
  - split; cbn; try done.
    + intros w Hw. apply Hrun. by destruct (wpc s).
    + intros Hw. apply Hgo. by destruct (wpc s).
  - destruct (ipcs s !! j) as [p|] eqn:Hj; [|done]. split; cbn; try done.
    intros i [[-> Hp]|[_ Hi]]%(lookup_set_ipc _ _ _ _ _ _ Hj); [|eauto].
    destruct p; try done. eauto.
Qed.

Lemma state_ok_step l s s' :
  mutex_ok s → state_ok s → step l s = Some s' → failed s' = None → state_ok s'.
Proof.
  intros HM HS Hstep Hf. step_cases Hstep; try discriminate Hf.
  all: wake_frame state_ok_notify_all state_ok_wake.
  all: destruct HS as [Hsub Hrun Hgo Hwork].
  all: destruct HM as [Hc Hw Hd Hi].
  all: try match goal with
           | H : ipcs _ !! ?i = Some _ |- _ => pose proof (Hi i) as Hii; rewrite H in Hii
           end.
  all: cbn in *; rw_known; cbn in *; learn_owner.
  all: split; cbn in *; rw_known; cbn in *.
  all: try solve [intuition congruence].
  all: try (intros j Hj;
            try match goal with
                | Hx : ipcs ?s !! ?i = Some ?p |- _ =>
                    apply (lookup_set_ipc _ i j p _ _ Hx) in Hj as [[-> ?]|[? Hj]]
                end;
            try discriminate;
            try (pose proof (Hi j) as Hjj; rewrite Hj in Hjj; cbn in Hjj);
            try (rewrite Hj in *; cbn in *)).
  all: try solve [intuition (try congruence; eauto)].
Qed.

Lemma incr64_succ n : 0 ≤ n < 2 ^ 64 → incr64 n ≠ 0 → incr64 n = n + 1.
Proof.
  unfold incr64. intros Hn Hnz. destruct (decide (n + 1 = 2 ^ 64)) as [Heq|Hne].
  - rewrite Heq, Z.mod_same in Hnz by lia. done.
  - apply Z.mod_small. lia.
Qed.

Lemma incr64_range n : 0 ≤ incr64 n < 2 ^ 64.
Proof. unfold incr64. apply Z.mod_pos_bound. lia. Qed.

Lemma snoc_split {A} (l pre post : list A) (e x : A) :
  l ++ [e] = pre ++ x :: post →
  (post = [] ∧ x = e ∧ pre = l) ∨ (∃ post', post = post' ++ [e] ∧ l = pre ++ x :: post').
Proof.
  destruct post as [|y post' _] using rev_ind.
  - intros [-> ->]%app_inj_tail. by left.
  - rewrite app_comm_cons, app_assoc. intros [-> ->]%app_inj_tail. right. eauto.
Qed.

Lemma workID_of_wake p : workID_of (wake_invoker p) = workID_of p.
Proof. by destruct p. Qed.
Lemma wake_invoker_IReturned p : wake_invoker p = IReturned → p = IReturned.
Proof. by destruct p. Qed.
Lemma wake_worker_WIter p : wake_worker p = WIter ↔ p = WIter.
Proof. by destruct p. Qed.

Lemma ids_ok_notify_all s : ids_ok s → ids_ok (notify_all s).
Proof.
  intros [Hid Hrange Hret Hord]. split; unfold notify_all; cbn; try done.
  - intros i p id (p0 & -> & Hi)%list_lookup_fmap_Some. rewrite workID_of_wake.
    rewrite wake_worker_WIter. eauto.
  - intros i (p0 & ->%eq_sym%wake_invoker_IReturned & Hi)%list_lookup_fmap_Some. eauto.
Qed.

Lemma ids_ok_wake t s : ids_ok s → ids_ok (wake t s).
Proof.
  intros [Hid Hrange Hret Hord]. unfold wake. destruct t as [| |j|]; try done.
  - split; cbn; try done. intros i p id. rewrite wake_worker_WIter. eauto.
  - destruct (ipcs s !! j) as [p0|] eqn:Hj; [|done]. split; cbn; try done.
    + intros i p id [[-> ->]|[_ Hi]]%(lookup_set_ipc _ _ _ _ _ _ Hj); [|eauto].
      rewrite workID_of_wake. eauto.
    + intros i [[-> ->%eq_sym%wake_invoker_IReturned]|[_ Hi]]%(lookup_set_ipc _ _ _ _ _ _ Hj);
        eauto.
Qed.

Ltac split_lookup Hj :=
  try match type of Hj with
      | <[?i := _]> (ipcs ?s) !! ?j = Some _ =>
          match goal with
          | Hx : ipcs s !! i = Some ?p |- _ =>
              apply (lookup_set_ipc _ i j p _ _ Hx) in Hj as [[-> ?]|[? Hj]]
          end
      end; simplify_eq.

Ltac not_worker :=
  let Hx := fresh in
  intros Hx; rewrite Hx in *; cbn in *; intuition congruence.

Ltac elem_tac :=
  first
    [ assumption
    | apply elem_of_app; left; assumption
    | apply elem_of_app; right; apply list_elem_of_singleton; reflexivity ].

Ltac ids_close :=
  cbn in *; simplify_eq;
  first
    [ done
    | solve [left; split; [lia|elem_tac]]
    | solve [right; split_and!; first [done|congruence|lia|not_worker]]
    | solve [exfalso; first [congruence|lia]]
    | solve [elem_tac]
    | idtac ].

Lemma ids_ok_step l s s' :
  mutex_ok s → startup_ok s → state_ok s → ids_ok s →
  step l s = Some s' → failed s' = None → ids_ok s'.
Proof.
  intros HM HU HT HS Hstep Hf. step_cases Hstep; try discriminate Hf.
  all: wake_frame ids_ok_notify_all ids_ok_wake.
  all: try match goal with
           | H : ipcs _ !! ?i = Some ?p |- _ =>
               assert (p = IStart ∨ cpc s = CDone) as [?|Hdone]
                 by (destruct (decide (p = IStart)); eauto using startup_ok_started);
               [try discriminate|]
           end.
  all: destruct HS as [Hid Hrange Hret Hord].
  all: destruct HT as [Hsub Hrun Hgo Hwork].
  all: destruct HU as [Hfr Hst Hun].
  all: destruct HM as [Hc Hw Hd Hi].
  all: try match goal with
           | H : ipcs _ !! ?i = Some _ |- _ => pose proof (Hi i) as Hii; rewrite H in Hii
           end.
  all: try match goal with
           | H : ipcs _ !! ?i = Some ?p |- _ => pose proof (Hid i p _ H eq_refl) as Hidi
           end.
  all: cbn in *; rw_known; cbn in *; learn_owner.
  all: try match goal with
           | H : incr64 (workCount ?s0) ≠ 0 |- _ =>
               pose proof (incr64_range (workCount s0));
               rewrite (incr64_succ _ Hrange H) in *
           end.
  all: try (specialize (Hst eq_refl) as [_ Hst]; rewrite Hst in *).
  all: try (edestruct Hrun as [_ Hrun']; [done|]; rewrite Hrun' in *).
  all: split; cbn in *; rw_known; cbn in *.
  all: try solve [intuition congruence].
  all: try lia.
  (* io_workID *)
  all: try match goal with
           | |- ∀ (i : nat) (p : invoker_pc) (id : Z), _ =>
               intros j p id Hj Hidj; split_lookup Hj; cbn in Hidj; simplify_eq;
               try (destruct (Hid j p id Hj Hidj) as [[? ?]|(? & ? & ? & ?)]);
               try (destruct Hidi as [[? ?]|(? & ? & ? & ?)]);
               ids_close
           end.
  (* io_returned *)
  all: try match goal with
           | |- ∀ i : nat, _ !! i = Some IReturned → _ =>
               intros j Hj; split_lookup Hj;
               try (destruct Hidi as [[? ?]|(? & ? & ? & ?)]);
               try (specialize (Hret j Hj));
               ids_close
           end.
  (* io_order *)
  all: try match goal with
           | |- ∀ (i : nat) (pre post : list bevent), _ =>
               intros j pre post [(-> & He & ->)|(post' & -> & Heq)]%snoc_split;
               simplify_eq;
               try (destruct Hidi as [[? ?]|(? & ? & ? & ?)]);
               try (specialize (Hord _ _ _ Heq));
               ids_close
           end.
Qed.

Lemma count_starts_snoc es e :
  count_starts (es ++ [e]) = (count_starts es + if e is EStart _ then 1 else 0)%nat.
Proof. unfold count_starts. rewrite sum_list_with_app. simpl. lia. Qed.

Lemma count_resumes_snoc es e :
  count_resumes (es ++ [e]) = (count_resumes es + if e is EResume _ then 1 else 0)%nat.
Proof. unfold count_resumes. rewrite sum_list_with_app. simpl. lia. Qed.

Lemma is_running_wake p : is_running (wake_worker p) = is_running p.
Proof. by destruct p. Qed.
Lemma in_flight_wake st p : in_flight st (wake_worker p) = in_flight st p.
Proof. by destruct st, p. Qed.

Lemma counts_ok_notify_all K s : counts_ok K s → counts_ok K (notify_all s).
Proof.
  intros [Hlen Hone Hcount Htotal]. split; unfold notify_all; cbn.
  - by rewrite length_fmap.
  - by rewrite is_running_wake.
  - done.
  - by rewrite in_flight_wake, count_submitted_wake.
Qed.

Lemma submitted_wake p : submitted (wake_invoker p) = submitted p.
Proof. by destruct p. Qed.

Lemma counts_ok_wake K t s : counts_ok K s → counts_ok K (wake t s).
Proof.
  intros [Hlen Hone Hcount Htotal]. unfold wake. destruct t as [| |j|]; try done.
  - split; cbn; by rewrite ?is_running_wake, ?in_flight_wake.
  - destruct (ipcs s !! j) as [p0|] eqn:Hj; [|done]. split; cbn; try done.
    + by rewrite length_insert.
    + pose proof (count_submitted_insert _ _ _ (wake_invoker p0) Hj) as Hins.
      rewrite submitted_wake in Hins. lia.
Qed.

Lemma in_flight_WIter st : in_flight st WIter = false.
Proof. by destruct st. Qed.

Lemma counts_ok_step K l s s' :
  mutex_ok s → startup_ok s → state_ok s → ids_ok s → counts_ok K s →
  step l s = Some s' → failed s' = None → counts_ok K s'.
Proof.
  intros HM HU HT HI HS Hstep Hf. step_cases Hstep; try discriminate Hf.
  all: wake_frame (counts_ok_notify_all K) (counts_ok_wake K).
  all: destruct HS as [Hlen Hone Hcount Htotal].
  all: destruct HI as [_ Hrange _ _].
  all: destruct HT as [Hsub Hrun Hgo Hwork].
  all: destruct HU as [Hfr Hst Hun].
  all: destruct HM as [Hc Hw Hd Hi].
  all: try match goal with
           | H : ipcs _ !! ?i = Some _ |- _ =>
               pose proof (Hi i) as Hii; rewrite H in Hii;
               pose proof (λ q, count_submitted_insert _ _ _ q H) as Hins
           end.
  all: cbn in *; rw_known; cbn in *; learn_owner.
  all: try match goal with
           | H : incr64 (workCount ?s0) ≠ 0 |- _ =>
               rewrite (incr64_succ _ Hrange H) in *
           end.
  all: try (assert (wpc s = WUnborn) as Hwu by (apply Hun; auto);
            rewrite Hwu in *; cbn in * ).
  all: try (specialize (Hst eq_refl) as [_ Hst]; rewrite Hst in * ).
  all: try (edestruct Hrun as [Hrun' _]; [done|]; rewrite Hrun' in * ).
  all: rewrite ?in_flight_WIter in *.
  all: split; cbn in *; rw_known; cbn in *;
       rewrite ?length_insert, ?count_starts_snoc, ?count_resumes_snoc; cbn.
  all: try done.
  all: try lia.
  all: try match goal with
           | |- context [count_submitted (<[_ := ?q]> _)] =>
               specialize (Hins q); cbn in Hins
           end.
  all: try lia.
  all: destruct (wpc s) eqn:Hwpc; cbn in *; try lia; intuition congruence.
Qed.

Lemma safe_init K : safe K (init K).
Proof.
  unfold safe, init. split_and!; split; cbn; try done.
  - intros i. destruct (replicate K IStart !! i) as [p|] eqn:Hp; [|done].
    apply lookup_replicate in Hp as [-> _]. done.
  - intros _. split; [|done]. apply Forall_replicate. done.
  - naive_solver.
  - intros i [? _]%lookup_replicate. done.
  - intros i p id [-> _]%lookup_replicate. done.
  - intros i [? _]%lookup_replicate. done.
  - intros i pre post Heq. by destruct pre.
  - by rewrite length_replicate.
  - unfold count_submitted, count_resumes. induction K as [|K IH]; [done|]. cbn. by rewrite <- IH.
Qed.



Lemma safe_step K l s s' :
  safe K s → step l s = Some s' → failed s' = None → safe K s'.
Proof.
  intros (HM & HU & HT & HI & HC) Hstep Hf. split_and!.
  - by eapply mutex_ok_step.
  - by eapply startup_ok_step.
  - by eapply state_ok_step.
  - by eapply ids_ok_step.
  - by eapply counts_ok_step.
Qed.

Lemma step_not_failed l s s' : step l s = Some s' → failed s = None.
Proof. unfold step. by destruct (failed s). Qed.

Lemma run_not_failed ls s s' : run ls s = Some s' → failed s' = None → failed s = None.
Proof.
  destruct ls as [|l ls]; simpl; [by intros [= ->]|].
  destruct (step l s) as [s1|] eqn:Hs; [|done]. intros _ _. by eapply step_not_failed.
Qed.

Lemma run_safe K ls s s' :
  safe K s → run ls s = Some s' → failed s' = None → safe K s'.
Proof.
  revert s. induction ls as [|l ls IH]; intros s HS Hrun Hf; simpl in Hrun.
  - by simplify_eq.
  - destruct (step l s) as [s1|] eqn:Hs; [|done]. simpl in Hrun.
    eapply IH; [|done..]. eapply safe_step; [done..|]. by eapply run_not_failed.
Qed.

Lemma reachable_safe K s : reachable K s → failed s = None → safe K s.
Proof. intros [ls Hls] Hf. eapply run_safe; [apply safe_init|done..]. Qed.

Lemma run_snoc ls l s : run (ls ++ [l]) s = run ls s ≫= step l.
Proof.
  revert s. induction ls as [|l' ls IH]; intros s; simpl.
  - by destruct (step l s).
  - destruct (step l' s); simpl; [apply IH|done].
Qed.

Lemma count_submitted_le l : (count_submitted l ≤ length l)%nat.
Proof.
  unfold count_submitted. induction l as [|p l IH]; [done|]. cbn.
  destruct (submitted p); lia.
Qed.

(** With fewer than 2^64 calls the counter cannot overflow. *)
Lemma no_overflow K s w :
  Z.of_nat K < 2 ^ 64 → safe K s → wpc s = WRunning w → incr64 (workCount s) ≠ 0.
Proof.
  intros HK (_ & _ & [_ Hrun _ _] & _ & [Hlen _ Hcount Htotal]) Hw.
  destruct (Hrun _ Hw) as [Hst _]. rewrite Hw, Hst in Htotal. cbn in Htotal.
  pose proof (count_submitted_le (ipcs s)). unfold incr64.
  rewrite Z.mod_small by lia. lia.
Qed.

Lemma workCount_notify_all s : workCount (notify_all s) = workCount s.
Proof. done. Qed.
Lemma workCount_wake t s : workCount (wake t s) = workCount s.
Proof. unfold wake. destruct t; try done. by destruct (ipcs s !! i). Qed.
Lemma events_notify_all s : events (notify_all s) = events s.
Proof. done. Qed.
Lemma events_wake t s : events (wake t s) = events s.
Proof. unfold wake. destruct t; try done. by destruct (ipcs s !! i). Qed.
Lemma state_notify_all s : state (notify_all s) = state s.
Proof. done. Qed.
Lemma state_wake t s : state (wake t s) = state s.
Proof. unfold wake. destruct t; try done. by destruct (ipcs s !! i). Qed.
Lemma work_notify_all s : work (notify_all s) = work s.
Proof. done. Qed.
Lemma work_wake t s : work (wake t s) = work s.
Proof. unfold wake. destruct t; try done. by destruct (ipcs s !! i). Qed.
Lemma failed_notify_all s : failed (notify_all s) = failed s.
Proof. done. Qed.
Lemma failed_wake t s : failed (wake t s) = failed s.
Proof. unfold wake. destruct t; try done. by destruct (ipcs s !! i). Qed.

Ltac proj_simpl :=
  cbn in *;
  rewrite ?workCount_notify_all, ?workCount_wake, ?events_notify_all, ?events_wake,
    ?state_notify_all, ?state_wake, ?work_notify_all, ?work_wake,
    ?failed_notify_all, ?failed_wake in *;
  cbn in *.



Lemma lookup_notify_all s j : ipcs (notify_all s) !! j = wake_invoker <$> ipcs s !! j.
Proof. unfold notify_all. cbn. apply list_lookup_fmap. Qed.

Lemma lookup_wake_workID t s j :
  ipcs (wake t s) !! j ≫= workID_of = ipcs s !! j ≫= workID_of.
Proof.
  unfold wake. destruct t as [| |i|]; try done.
  destruct (ipcs s !! i) as [p|] eqn:Hi; [|done]. cbn.
  destruct (decide (i = j)) as [->|].
  - rewrite list_lookup_insert_eq by (by eapply lookup_lt_Some). rewrite Hi. cbn.
    apply workID_of_wake.
  - by rewrite list_lookup_insert_ne.
Qed.

Lemma lookup_notify_all_workID s j :
  ipcs (notify_all s) !! j ≫= workID_of = ipcs s !! j ≫= workID_of.
Proof. rewrite lookup_notify_all. destruct (ipcs s !! j); cbn; [apply workID_of_wake|done]. Qed.

Lemma lookup_insert_workID (l : list invoker_pc) i j p q :
  l !! i = Some p →
  <[i := q]> l !! j ≫= workID_of
  = if decide (j = i) then workID_of q else l !! j ≫= workID_of.
Proof.
  intros Hi. case_decide as Hji; [subst j|].
  - by rewrite list_lookup_insert_eq by (by eapply lookup_lt_Some).
  - by rewrite list_lookup_insert_ne.
Qed.



Lemma step_work s l s' :
  step l s = Some s' →
  (work s' = work s ∧ (state s' = WorkAvailable → state s = WorkAvailable)) ∨
  (state s = Waiting ∧ state s' = WorkAvailable ∧
   ∃ i pick, l = Run (TInvoker i) pick ∧ ipcs s !! i = Some ISubmit ∧ work s' = Some i).
Proof.
  intros Hstep. step_cases Hstep; proj_simpl; try (left; split; by auto).
  right. split_and!; [done..|]. eauto 10.
Qed.

(** C5. Work is stored, and the state set to [WorkAvailable], only by the
    submitting section of [invoke] and only in state [Waiting]: a call
    that stands before that section sees [Waiting] (its assertion never
    fails), and in any other state no step touches the work slot or
    moves the state to [WorkAvailable]. *)
Theorem work_accepted_only_when_Waiting (K : nat) (s : Bridge) (l : label) (s' : Bridge) :
  reachable K s → step l s = Some s' →
  (∀ i, ipcs s !! i = Some ISubmit → state s = Waiting) ∧
  failed s' ≠ Some AInvokeWaiting ∧
  (work s' ≠ work s ∨ (state s' = WorkAvailable ∧ state s ≠ WorkAvailable) →
     state s = Waiting ∧
     ∃ i pick, l = Run (TInvoker i) pick ∧ ipcs s !! i = Some ISubmit ∧ work s' = Some i) ∧
  (state s ≠ Waiting → work s' = work s).
Proof.
  intros Hreach Hstep.
  assert (safe K s) as (_ & _ & [Hsub _ _ _] & _)
    by eauto using reachable_safe, step_not_failed.
  split_and!.
  - done.
  - intros Hf. step_cases Hstep; proj_simpl; try congruence.
    match goal with H : state s ≠ Waiting |- _ => destruct H end. eauto.
  - destruct (step_work s l s' Hstep) as [[Hw Hst]|(? & ? & ?)]; [|done].
    intros [?|[? ?]]; [done|]. by destruct H0; auto.
  - destruct (step_work s l s' Hstep) as [[Hw Hst]|(? & ? & ?)]; done.
Qed.

Lemma notify_one_inv pick s s' :
  notify_one pick s = Some s' →
  (waiting s pick = true ∧ s' = wake pick s) ∨ (no_waiter s = true ∧ s' = s).
Proof. unfold notify_one. repeat case_match; naive_solver. Qed.

Lemma invoker_blocked_wake p : invoker_blocked (wake_invoker p) = false.
Proof. by destruct p. Qed.

(** Case analysis of a step of a quiet schedule. *)
Ltac quiet_cases H Hq :=
  unfold step in H;
  match type of H with
  | match failed ?s with _ => _ end = _ => destruct (failed s) eqn:?; [discriminate H|]
  end;
  match type of H with
  | match ?l with _ => _ end = _ => destruct l as [[| |?i|] ?pick|?t]
  end; try discriminate Hq;
  [ unfold step_ctor, acquire in H
  | unfold step_worker, acquire, resume in H
  | unfold step_invoker, acquire in H ];
  repeat case_match; simplify_eq;
  try match goal with
      | H : notify_one _ _ = Some _ |- _ => apply notify_one_inv in H as [[? ->]|[? ->]]
      end.

Lemma no_waiter_ctor s : no_waiter s = true → cpc s ≠ CBlocked.
Proof.
  unfold no_waiter, waiting. intros [[Hc _]%andb_true_iff _]%andb_true_iff.
  by apply negb_true_iff, bool_decide_eq_false in Hc.
Qed.

Ltac live_field s :=
  try match goal with
      | |- ∀ (i : nat) (p : invoker_pc), _ =>
          let j := fresh "j" in let p := fresh "p" in
          let Hj := fresh "Hj" in let Hb := fresh "Hb" in
          intros j p Hj Hb;
          first
            [ apply list_lookup_fmap_Some in Hj as (? & -> & Hj);
              rewrite invoker_blocked_wake in Hb; discriminate Hb
            | split_lookup Hj; cbn in Hb; try discriminate Hb;
              try match goal with
                  | L : ∀ (i : nat) (p : invoker_pc), _ |- _ => specialize (L j p Hj Hb)
                  end ]
      end;
  try (destruct (state s) eqn:?; cbn in *; try done; try congruence;
       try solve [intuition congruence]);
  try (destruct (wpc s) eqn:?; cbn in *; try done; try congruence;
       try solve [intuition congruence]);
  try (destruct (cpc s) eqn:?; cbn in *; try done; try congruence;
       try solve [intuition congruence]);
  try lia.

(** The notification of [threadMain] can only reach the constructor. *)
Lemma notify_one_startup s pick :
  startup_ok s → wpc s = WNotify → waiting (set_wpc WIter s) pick = true →
  pick = TCtor ∧ cpc s = CBlocked.
Proof.
  intros [Hfr Hst _] Hw Hwait. rewrite Hw in Hst. destruct (Hst eq_refl) as [Hc _].
  destruct (Hfr Hc) as [Hall _]. destruct pick as [| |j|]; cbn in Hwait; try done.
  - split; [done|]. by apply bool_decide_eq_true in Hwait.
  - destruct (ipcs s !! j) as [p|] eqn:Hj; [|done].
    by rewrite (Forall_lookup_1 _ _ _ _ Hall Hj) in Hwait.
Qed.

Lemma live_ok_step K l s s' :
  Z.of_nat K < 2 ^ 64 → safe K s → live_ok s → quiet l = true →
  step l s = Some s' → live_ok s'.
Proof.
  intros HK HS HL Hq Hstep. pose proof (no_overflow K s) as Hno. pose proof HS as HS0.
  quiet_cases Hstep Hq.
  all: try match goal with
           | H : ipcs _ !! ?i = Some ?p |- _ =>
               assert (p = IStart ∨ cpc s = CDone) as [?|Hdone]
                 by (destruct (decide (p = IStart));
                     [by left|right; eapply startup_ok_started; [apply HS|done..]]);
               [try discriminate|]
           end.
  all: destruct HS as ([Hc Hw Hd Hi] & [Hfr Hst Hun] & [Hsub Hrun Hgo Hwork]
                       & [Hid Hrange Hret Hord] & _).
  all: destruct HL as [Lf Ld [Le1 Le2] Li Lu La Lb Lw Lc Lcw Lbusy].
  all: try match goal with
           | H : ipcs _ !! ?i = Some ?p |- _ =>
               pose proof (Hi i) as Hii; rewrite H in Hii;
               try (pose proof (Hid i p _ H eq_refl) as Hidi)
           end.
  all: try match goal with
           | H : no_waiter _ = true |- _ => apply no_waiter_ctor in H
           | H : waiting (set_wpc WIter _) _ = true |- _ =>
               eapply notify_one_startup in H as [-> ?]; [|done..]
           end.
  all: cbn in *; rw_known; cbn in *; learn_owner.
  all: try (by destruct (Hno _ HK HS0 eq_refl)).
  all: try solve [exfalso; first [congruence | by eapply is_Some_None, Hwork
                                 | intuition congruence]].
  all: try (match goal with H : state _ ≠ Waiting |- _ => destruct H end; by eauto).
  all: try (destruct Hwork as [? ?]; [done|congruence]).
  all: unfold notify_all, wake; cbn.
  all: try (split; cbn in *; rw_known; cbn in *; try done; try solve [intuition congruence]).
  all: live_field s.
Qed.

Lemma sum_list_with_insert {A} (f : A → nat) (l : list A) (i : nat) (x y : A) :
  l !! i = Some x →
  (sum_list_with f (<[i := y]> l) + f x = sum_list_with f l + f y)%nat.
Proof.
  revert i. induction l as [|z l IH]; intros i Hi; [done|].
  destruct i as [|i]; simplify_eq/=; [lia|]. specialize (IH _ Hi). lia.
Qed.

Lemma sum_pending_wake (l : list invoker_pc) :
  sum_list_with pending_of (wake_invoker <$> l) = sum_list_with pending_of l.
Proof.
  induction l as [|x l IH]; [done|].
  rewrite fmap_cons. cbn [sum_list_with]. rewrite IH. by destruct x.
Qed.

Lemma sum_rank_le (l : list invoker_pc) :
  (sum_list_with rank_invoker l ≤ 4 * length l)%nat.
Proof.
  induction l as [|x l IH]; [done|]. cbn [sum_list_with length].
  assert (rank_invoker x ≤ 4)%nat by (destruct x; cbn; lia). lia.
Qed.

Lemma ranks_lt_weight K s : length (ipcs s) = K → (ranks s < weight K)%nat.
Proof.
  intros <-. unfold ranks, weight. pose proof (sum_rank_le (ipcs s)).
  assert (rank_ctor (cpc s) ≤ 5)%nat by (destruct (cpc s); cbn; lia).
  assert (rank_worker (wpc s) ≤ 7)%nat by (destruct (wpc s); cbn; lia).
  lia.
Qed.

(** Every step of a quiet schedule either consumes a notification or
    brings a thread closer to its next wait. *)
Lemma step_progress_order K l s s' :
  Z.of_nat K < 2 ^ 64 → safe K s → live_ok s → quiet l = true →
  step l s = Some s' →
  (pending s' < pending s)%nat ∨ (pending s' = pending s ∧ ranks s' < ranks s)%nat.
Proof.
  intros HK HS HL Hq Hstep. pose proof (no_overflow K s) as Hno. pose proof HS as HS0.
  quiet_cases Hstep Hq.
  all: try match goal with
           | H : ipcs _ !! ?i = Some ?p |- _ =>
               assert (p = IStart ∨ cpc s = CDone) as [?|Hdone]
                 by (destruct (decide (p = IStart));
                     [by left|right; eapply startup_ok_started; [apply HS|done..]]);
               [try discriminate|];
               pose proof (λ q, sum_list_with_insert pending_of _ _ _ q H) as Hip;
               pose proof (λ q, sum_list_with_insert rank_invoker _ _ _ q H) as Hir
           end.
  all: destruct HS as ([Hc Hw Hd Hi] & [Hfr Hst Hun] & [Hsub Hrun Hgo Hwork]
                       & [Hid Hrange Hret Hord] & _).
  all: destruct HL as [Lf Ld [Le1 Le2] Li Lu La Lb Lw Lc Lcw Lbusy].
  all: try match goal with
           | H : ipcs _ !! ?i = Some ?p |- _ => pose proof (Hi i) as Hii; rewrite H in Hii
           end.
  all: try match goal with
           | H : no_waiter _ = true |- _ => apply no_waiter_ctor in H
           | H : waiting (set_wpc WIter _) _ = true |- _ =>
               eapply notify_one_startup in H as [-> ?]; [|done..]
           end.
  all: cbn in *; rw_known; cbn in *; learn_owner.
  all: try (by destruct (Hno _ HK HS0 eq_refl)).
  all: try solve [exfalso; first [congruence | by eapply is_Some_None, Hwork
                                 | intuition congruence]].
  all: try (match goal with H : state _ ≠ Waiting |- _ => destruct H end; by eauto).
  all: try (destruct Hwork as [? ?]; [done|congruence]).
  all: unfold pending, ranks, notify_all, wake; cbn; rw_known; cbn;
       rewrite ?sum_pending_wake.
  all: try match goal with
           | |- context [sum_list_with pending_of (<[_ := ?q]> _)] =>
               specialize (Hip q); specialize (Hir q); cbn in Hip, Hir
           end.
  all: try lia.
  all: try (assert (wpc s = WUnborn) as Hwu by (apply Hun; auto);
            rewrite Hwu in *; cbn in * ).
  all: try lia.
  all: try (edestruct Hrun as [Hrun' _]; [done|]; rewrite Hrun' in *; cbn in * ).
  all: try lia.
  all: destruct (state s) eqn:?; cbn in *; try lia;
       try solve [exfalso; intuition congruence].
  all: destruct (wpc s) eqn:?; cbn in *; try lia;
       try solve [exfalso; intuition congruence].
Qed.

Lemma no_waiter_startup s :
  startup_ok s → wpc s = WNotify → cpc s ≠ CBlocked → no_waiter (set_wpc WIter s) = true.
Proof.
  intros [Hfr Hst _] Hw Hc. rewrite Hw in Hst. destruct (Hst eq_refl) as [Hcd _].
  destruct (Hfr Hcd) as [Hall _]. unfold no_waiter, waiting. cbn.
  rewrite bool_decide_eq_false_2 by done. cbn.
  apply forallb_forall. intros p Hp%list_elem_of_In.
  rewrite Forall_forall in Hall. by rewrite (Hall _ Hp).
Qed.

Ltac step_some :=
  unfold step, step_ctor, step_worker, step_invoker, acquire, resume;
  repeat first
    [ progress cbn
    | match goal with
      | H : failed _ = None |- _ => rewrite H
      | H : mutex _ = _ |- _ => rewrite H
      | H : cpc _ = _ |- _ => rewrite H
      | H : wpc _ = _ |- _ => rewrite H
      | H : ipcs _ !! _ = Some _ |- _ => rewrite H
      end
    | case_match ];
  try done; eauto.

Ltac not_owner H Heq :=
  exfalso; rewrite ?Heq in H; cbn in H; destruct H as [H _]; by specialize (H eq_refl).

(** A quiet schedule never gets stuck before every call has returned. *)
Lemma quiet_progress K s :
  safe K s → live_ok s →
  all_returned s ∨ ∃ l, quiet l = true ∧ is_Some (step l s).
Proof.
  intros ([Hc Hw Hd Hi] & HU & [Hsub Hrun Hgo Hwork] & _ & _)
         [Lf Ld [Le1 Le2] Li Lu La Lb Lw Lc Lcw Lbusy].
  pose proof HU as [Hfr Hst Hun].
  destruct (mutex s) as [t|] eqn:Hm.
  - right. destruct t as [| |i|].
    + exists (Run TCtor TCtor). split; [done|].
      destruct Hc as [_ Hc]. specialize (Hc eq_refl).
      destruct (cpc s) eqn:Hcp; try done; step_some.
    + destruct Hw as [_ Hw]. specialize (Hw eq_refl).
      destruct (wpc s) eqn:Hwp; try done.
      * destruct (decide (cpc s = CBlocked)) as [Hcb|Hcb].
        -- exists (Run TWorker TCtor). split; [done|]. unfold step, step_worker.
           rewrite Lf, Hwp. unfold notify_one, waiting. cbn.
           rewrite bool_decide_eq_true_2 by done. eauto.
        -- exists (Run TWorker TDtor). split; [done|]. unfold step, step_worker.
           rewrite Lf, Hwp. unfold notify_one. cbn.
           rewrite (no_waiter_startup s) by done. eauto.
      * exists (Run TWorker TCtor). split; [done|]. step_some.
      * exists (Run TWorker TCtor). split; [done|]. step_some.
      * exists (Run TWorker TCtor). split; [done|]. step_some.
      * exists (Run TWorker TCtor). split; [done|]. step_some.
    + destruct (Hi i) as [_ Hii]. specialize (Hii eq_refl).
      destruct (ipcs s !! i) as [p|] eqn:Hp; [|done].
      exists (Run (TInvoker i) TCtor). split; [done|].
      destruct p; try done; step_some.
    + destruct Hd as [_ Hd]. specialize (Hd eq_refl). by rewrite Ld in Hd.
  - destruct (cpc s) eqn:Hcp.
    + right. exists (Run TCtor TCtor). split; [done|]. step_some.
    + not_owner Hc Hcp.
    + not_owner Hc Hcp.
    + right. destruct (Lc eq_refl) as [Hwp|Hwp].
      * exists (Run TWorker TCtor). split; [done|]. step_some.
      * not_owner Hw Hwp.
    + right. exists (Run TCtor TCtor). split; [done|]. step_some.
    + destruct (decide (all_returned s)) as [|Hnot]; [by left|right].
      apply not_Forall_Exists, Exists_exists in Hnot as (p & Hp & Hne); [|apply _].
      apply list_elem_of_lookup in Hp as [i Hp].
      assert (invoker_blocked p = true → ∃ l, quiet l = true ∧ is_Some (step l s)) as Hblk.
      { intros Hb. specialize (Lbusy i p Hp Hb).
        destruct (state s) eqn:Hst'; try done.
        destruct (wpc s) eqn:Hwp; try done.
        - not_owner Hw Hwp.
        - exists (Run TWorker TCtor). split; [done|]. step_some.
        - not_owner Hw Hwp.
        - not_owner Hw Hwp. }
      specialize (Hi i). rewrite Hp in Hi.
      destruct p; try done; try (by apply Hblk).
      all: try (exists (Run (TInvoker i) TCtor); split; [done|]; step_some; fail).
      by destruct Hne.
Qed.

Lemma live_init K : live_ok (init K).
Proof.
  split; cbn; try done; try naive_solver.
  intros i p [-> _]%lookup_replicate. done.
Qed.

Lemma quiet_run_inv K ls s s' :
  Z.of_nat K < 2 ^ 64 → safe K s → live_ok s →
  Forall (λ l, quiet l = true) ls → run ls s = Some s' →
  safe K s' ∧ live_ok s' ∧ (length ls + measure K s' ≤ measure K s)%nat.
Proof.
  intros HK. revert s. induction ls as [|l ls IH]; intros s HS HL Hq Hrun; simpl in Hrun.
  - simplify_eq. split_and!; [done..|]. simpl. lia.
  - destruct (step l s) as [s1|] eqn:Hs; [|done]. simpl in Hrun.
    apply Forall_cons in Hq as [Hl Hq].
    assert (live_ok s1) as HL1 by (by eapply live_ok_step).
    assert (safe K s1) as HS1 by (eapply safe_step; [done..|apply HL1]).
    destruct (IH s1 HS1 HL1 Hq Hrun) as (? & ? & Hm). split_and!; [done..|].
    assert (measure K s1 < measure K s)%nat; [|simpl; lia].
    pose proof (ranks_lt_weight K s1 (co_length _ _ (proj2 (proj2 (proj2 (proj2 HS1)))))).
    unfold measure.
    destruct (step_progress_order K l s s1 HK HS HL Hl Hs) as [Hp|[Hp Hr]]; [nia|lia].
Qed.

Lemma step_failed_same l s s' :
  step l s = Some s' → failed s' ≠ None → events s' = events s ∧ ipcs s' = ipcs s.
Proof.
  intros Hstep Hf. step_cases Hstep; proj_simpl; try done.
  all: by destruct Hf.
Qed.

(** The events and the program points of the calls in a state in which
    an assertion has failed are those of a state in which none has. *)
Lemma reachable_unfailed K s :
  reachable K s →
  ∃ s0, reachable K s0 ∧ failed s0 = None ∧ events s0 = events s ∧ ipcs s0 = ipcs s.
Proof.
  intros [ls Hls]. destruct (failed s) eqn:Hf; [|by exists s; split_and!; [exists ls|..]].
  destruct ls as [|l ls _] using rev_ind; [by simplify_eq/=|].
  rewrite run_snoc in Hls. destruct (run ls (init K)) as [s0|] eqn:Hs0; [|done].
  simpl in Hls. exists s0.
  destruct (step_failed_same l s0 s Hls) as [? ?]; [congruence|].
  split_and!; [by exists ls|by eapply step_not_failed|done..].
Qed.

(** C3. With [K] invoking threads, under every schedule, spurious
    wake-ups and a racing destructor included: a call that has returned
    has had the resume of its own work item fired, and fired before it
    returned, and the worker has started at most one work item more than
    it has finished. Under the schedules without spurious wake-ups and
    without the destructor, for [K] below 2^64: no assertion fails, a run
    is never longer than [measure K (init K)] steps, and as long as some
    call has not returned some thread can take a step; so every maximal
    run ends with all [K] calls returned, whatever the order in which the
    threads were scheduled. *)
Theorem invoke_returns_after_own_resume (K : nat) :
  (∀ ls s, run ls (init K) = Some s →
     (∀ i, ipcs s !! i = Some IReturned → EResume i ∈ events s) ∧
     (∀ i pre post, events s = pre ++ EReturn i :: post → EResume i ∈ pre) ∧
     (count_starts (events s) ≤ count_resumes (events s) + 1)%nat) ∧
  (Z.of_nat K < 2 ^ 64 →
   ∀ ls s, Forall (λ l, quiet l = true) ls → run ls (init K) = Some s →
     failed s = None ∧
     (length ls ≤ measure K (init K))%nat ∧
     (all_returned s ∨ ∃ l, quiet l = true ∧ is_Some (step l s))).
Proof.
  split.
  - intros ls s Hrun.
    destruct (reachable_unfailed K s) as (s0 & Hr0 & Hf0 & <- & <-); [by exists ls|].
    destruct (reachable_safe K s0 Hr0 Hf0) as (_ & _ & _ & [_ _ Hret Hord] & [_ Hone _ _]).
    split_and!; [done..|]. rewrite Hone. destruct (is_running (wpc s0)); lia.
  - intros HK ls s Hq Hrun.
    destruct (quiet_run_inv K ls (init K) s HK (safe_init K) (live_init K) Hq Hrun)
      as (HS & HL & Hm).
    split_and!; [apply HL|lia|by eapply quiet_progress].
Qed.

Lemma sample_schedule_quiet : Forall (λ l, quiet l = true) sample_schedule.
Proof. repeat constructor. Qed.

Lemma invoke_returns_after_own_resume_witness :
  failed (state_after 35) = None ∧
  (length sample_schedule ≤ measure 2 (init 2))%nat ∧
  (all_returned (state_after 35) ∨ ∃ l, quiet l = true ∧ is_Some (step l (state_after 35))).
Proof.
  apply (proj2 (invoke_returns_after_own_resume 2)).
  - lia.
  - apply sample_schedule_quiet.
  - vm_compute. reflexivity.
Defined.


Lemma work_accepted_only_when_Waiting_witness :
  (∀ i, ipcs (state_after 11) !! i = Some ISubmit → state (state_after 11) = Waiting) ∧
  failed (state_after 12) ≠ Some AInvokeWaiting ∧
  (work (state_after 12) ≠ work (state_after 11)
   ∨ (state (state_after 12) = WorkAvailable ∧ state (state_after 11) ≠ WorkAvailable) →
     state (state_after 11) = Waiting ∧
     ∃ i pick, Run (TInvoker 0) TCtor = Run (TInvoker i) pick ∧
               ipcs (state_after 11) !! i = Some ISubmit ∧
               work (state_after 12) = Some i) ∧
  (state (state_after 11) ≠ Waiting → work (state_after 12) = work (state_after 11)).
Proof.
  apply (work_accepted_only_when_Waiting 2 (state_after 11) (Run (TInvoker 0) TCtor)
           (state_after 12)).
  - exists (take 11 sample_schedule). vm_compute. reflexivity.
  - vm_compute. reflexivity.
Defined.

(** ** Further properties of the bridge *)

Lemma phase_ok_notify_all s : phase_ok s → phase_ok (notify_all s).
Proof.
  intros [Hi He Hs]. split; unfold notify_all; cbn.
  - by rewrite wake_ctor_CDone.
  - done.
  - rewrite wake_worker_WIter. intros Hst Hw. destruct (Hs Hst Hw) as [i Hi'].
    exists i. by rewrite <- (lookup_notify_all_workID s i) in Hi'.
Qed.

Lemma phase_ok_wake t s : phase_ok s → phase_ok (wake t s).
Proof.
  intros [Hi He Hs]. split.
  - rewrite state_wake. intros Hst. specialize (Hi Hst).
    unfold wake. destruct t as [| |j|]; cbn; rewrite ?wake_ctor_CDone; try done.
    by destruct (ipcs s !! j).
  - rewrite state_wake. intros Hst. specialize (He Hst).
    unfold wake. destruct t as [| |j|]; cbn; try done. by destruct (ipcs s !! j).
  - rewrite state_wake, workCount_wake. intros Hst Hw.
    destruct Hs as [i Hi']; [done| |].
    + intros Hw'. apply Hw. unfold wake. destruct t as [| |j|]; cbn; try done.
      * by rewrite wake_worker_WIter.
      * by destruct (ipcs s !! j).
    + exists i. by rewrite lookup_wake_workID.
Qed.

Lemma phase_ok_step l s s' :
  startup_ok s → phase_ok s → step l s = Some s' → failed s' = None → phase_ok s'.
Proof.
  intros HU HP Hstep Hf. step_cases Hstep; try discriminate Hf.
  all: wake_frame phase_ok_notify_all phase_ok_wake.
  all: destruct HP as [Hi He Hs].
  all: split; cbn in *; rw_known; cbn in *.
  all: try solve [intuition congruence].
  all: try (intros _ _; eexists;
            erewrite lookup_insert_workID by eassumption; by rewrite decide_True).
  all: try (intros Hst Hw; destruct Hs as [j Hj]; [done..|]; exists j;
            match goal with
            | Hx : ipcs _ !! ?i = Some _ |- _ =>
                erewrite lookup_insert_workID by exact Hx;
                destruct (decide (j = i)) as [->|]; [|done];
                rewrite Hx in Hj; cbn in Hj; simplify_eq; try done; lia
            end).
  intros Hst _. apply Hs; [done|]. destruct HU as [_ _ Hun].
  assert (wpc s = WUnborn) as -> by (apply Hun; rw_known; auto). done.
Qed.

Lemma phase_ok_init K : phase_ok (init K).
Proof. split; cbn; done. Qed.

Lemma run_phase_ok K ls s s' :
  safe K s → phase_ok s → run ls s = Some s' → failed s' = None → phase_ok s'.
Proof.
  revert s. induction ls as [|l ls IH]; intros s HS HP Hrun Hf; simpl in Hrun.
  - by simplify_eq.
  - destruct (step l s) as [s1|] eqn:Hs; [|done]. simpl in Hrun.
    assert (failed s1 = None) by (by eapply run_not_failed).
    eapply IH; [|  |done..].
    + by eapply safe_step.
    + eapply phase_ok_step; [|done..]. apply HS.
Qed.

Lemma reachable_phase_ok K s : reachable K s → failed s = None → phase_ok s.
Proof.
  intros [ls Hls] Hf. eapply run_phase_ok; [apply safe_init|apply phase_ok_init|done..].
Qed.

(** The one assertion that a step out of a safe state can fail. *)
Lemma step_failure K s l s' :
  Z.of_nat K < 2 ^ 64 → safe K s → step l s = Some s' →
  failed s' = None ∨
  (failed s' = Some ADtorWaiting ∧
   ∃ pick, l = Run TDtor pick ∧ dpc s = DHold ∧ state s ≠ Waiting).
Proof.
  intros HK HS Hstep. pose proof (no_overflow K s) as Hno.
  pose proof HS as ([Hc Hw Hd Hi] & HU & [Hsub Hrun Hgo Hwork] & _ & _).
  step_cases Hstep; proj_simpl; try (by left).
  all: try (right; split; [done|]; eauto).
  all: exfalso.
  all: try (match goal with n : mutex _ ≠ Some TWorker |- _ => apply n; by apply Hw end).
  all: try (by eapply Hno).
  all: try (destruct (Hgo eq_refl); congruence).
  all: try (destruct Hwork as [? ?]; congruence).
  all: try (match goal with
            | Hx : ipcs _ !! _ = Some ISubmit |- _ => apply Hsub in Hx; congruence
            end).
Qed.

(** A state in which an assertion has failed comes from a step of a
    state in which none had. *)
Lemma reachable_failed K s a :
  reachable K s → failed s = Some a →
  ∃ s0 l, reachable K s0 ∧ failed s0 = None ∧ step l s0 = Some s.
Proof.
  intros [ls Hls] Hf. destruct ls as [|l ls _] using rev_ind; [by simplify_eq/=|].
  rewrite run_snoc in Hls. destruct (run ls (init K)) as [s0|] eqn:Hs0; [|done].
  simpl in Hls. exists s0, l. split_and!; [by exists ls|by eapply step_not_failed|done].
Qed.

(** X14. With fewer than 2^64 calls, under every schedule, spurious
    wake-ups and a racing destructor included, no assertion of
    [threadIter], of the resume callback or of [invoke] ever fails: the
    worker owns its lock, finds work available, the counter does not
    overflow, and [invoke] stores its work in state [Waiting]. The one
    assertion that can fail is the destructor's [state == Waiting], and
    with a call in progress it does fail on some schedule. *)
Theorem only_destructor_assertion_fails (K : nat) :
  Z.of_nat K < 2 ^ 64 →
  (∀ s, reachable K s → failed s = None ∨ failed s = Some ADtorWaiting) ∧
  ((0 < K)%nat → ∃ s, reachable K s ∧ failed s = Some ADtorWaiting).
Proof.
  intros HK. split.
  - intros s Hr. destruct (failed s) as [a|] eqn:Hf; [|by left].
    destruct (reachable_failed K s a Hr Hf) as (s0 & l & Hr0 & Hf0 & Hstep).
    destruct (step_failure K s0 l s HK (reachable_safe K s0 Hr0 Hf0) Hstep) as [?|[? _]];
      [congruence|right; congruence].
  - intros HK0. destruct K as [|K]; [lia|].
    eexists. split.
    + exists race_schedule. unfold init. simpl replicate. vm_compute. reflexivity.
    + done.
Qed.

Lemma only_destructor_assertion_fails_witness :
  (∀ s, reachable 1 s → failed s = None ∨ failed s = Some ADtorWaiting) ∧
  ((0 < 1)%nat → ∃ s, reachable 1 s ∧ failed s = Some ADtorWaiting).
Proof. apply (only_destructor_assertion_fails 1). lia. Defined.

(** X15. When the constructor has returned the worker is ready: [state]
    has left [Uninitialized], the worker thread has finished
    [threadMain], and it either owns the mutex or sits in the wait of
    [threadIter]. *)
Theorem constructor_returns_with_worker_ready (K : nat) (s : Bridge) :
  reachable K s → failed s = None → cpc s = CDone →
  state s ≠ Uninitialized ∧ starting (wpc s) = false ∧
  (mutex s = Some TWorker ∨ wpc s = WBlocked ∨ wpc s = WWoken).
Proof.
  intros Hr Hf Hc.
  destruct (reachable_safe K s Hr Hf) as ([_ Hw _ _] & [_ Hst _] & _).
  destruct (reachable_phase_ok K s Hr Hf) as [Hi _ _].
  assert (starting (wpc s) = false) as Hns.
  { destruct (starting (wpc s)) eqn:E; [|done]. by destruct (Hst eq_refl). }
  split_and!; [intros ?%Hi; done|done|].
  destruct (wpc s); try done; auto; left; by apply Hw.
Qed.

Lemma reachable_state_after n : reachable 2 (state_after n).
Proof.
  unfold state_after. destruct (run (take n sample_schedule) (init 2)) as [s|] eqn:Hs.
  - by exists (take n sample_schedule).
  - by exists [].
Qed.

Lemma constructor_returns_with_worker_ready_witness :
  state (state_after 9) ≠ Uninitialized ∧ starting (wpc (state_after 9)) = false ∧
  (mutex (state_after 9) = Some TWorker ∨ wpc (state_after 9) = WBlocked
   ∨ wpc (state_after 9) = WWoken).
Proof.
  apply (constructor_returns_with_worker_ready 2 (state_after 9) (reachable_state_after 9));
    reflexivity.
Defined.

Lemma no_call_no_workID s i :
  no_call_in_progress s → ipcs s !! i ≫= workID_of = None.
Proof.
  intros Hall. destruct (ipcs s !! i) as [p|] eqn:Hp; [|done].
  by destruct (Forall_lookup_1 _ _ _ _ Hall Hp) as [-> | ->].
Qed.

Lemma no_call_not_blocked s t :
  no_call_in_progress s → cpc s = CDone → waiting s t = true → t = TWorker.
Proof.
  intros Hall Hc. destruct t as [| |i|]; cbn; try done.
  - rewrite Hc. done.
  - destruct (ipcs s !! i) as [p|] eqn:Hp; [|done].
    by destruct (Forall_lookup_1 _ _ _ _ Hall Hp) as [-> | ->].
Qed.

(** X16. With no call of [invoke] in progress no step of the destructor
    fails an assertion, under any schedule before it. When the destructor
    holds the mutex the state is [Waiting]; its step sets [ShouldExit],
    and the only thread that can be waiting on the condition, hence the
    only one that its [notify_one] can reach, is the worker. *)
Theorem destructor_assertion_holds (K : nat) (s : Bridge) (pick : tid) (s' : Bridge) :
  reachable K s → no_call_in_progress s → step (Run TDtor pick) s = Some s' →
  failed s' = None ∧
  (dpc s = DHold → state s = Waiting ∧ state s' = ShouldExit ∧
                   ∀ t, waiting s t = true → t = TWorker ∧ pick = TWorker).
Proof.
  intros Hr Hall Hstep. pose proof (step_not_failed _ _ _ Hstep) as Hf.
  destruct (reachable_safe K s Hr Hf) as ([_ Hw Hd _] & [Hfr _ _] & _).
  destruct (reachable_phase_ok K s Hr Hf) as [Hi He Hs].
  assert (dpc s = DHold → state s = Waiting) as Hwait.
  { intros Hdh. assert (cpc s = CDone) as Hc.
    { destruct (decide (cpc s = CDone)) as [|Hn]; [done|]. destruct (Hfr Hn). congruence. }
    assert (mutex s = Some TDtor) as Hm by (apply Hd; by rewrite Hdh).
    destruct (state s) eqn:Hst;
      [by destruct (Hi eq_refl)|done| |destruct (He eq_refl); congruence].
    destruct Hs as [i Hi']; [done| |by rewrite no_call_no_workID in Hi'].
    intros Hwi. assert (mutex s = Some TWorker) by (apply Hw; by rewrite Hwi). congruence. }
  unfold step in Hstep. rewrite Hf in Hstep. unfold step_dtor, acquire in Hstep.
  destruct (dpc s) eqn:Hdpc.
  - repeat case_match; simplify_eq. done.
  - specialize (Hwait eq_refl). rewrite decide_True in Hstep by done.
    apply fmap_Some in Hstep as (s1 & Hn & ->).
    assert (cpc s = CDone) as Hc.
    { destruct (decide (cpc s = CDone)) as [|Hn']; [done|]. destruct (Hfr Hn'). congruence. }
    assert (∀ t, waiting (set_dpc DJoin (set_state ShouldExit s)) t = waiting s t) as Hwt
      by (by intros []).
    apply notify_one_inv in Hn as [[Hp ->]|[Hno ->]].
    + rewrite Hwt in Hp. cbn. rewrite failed_wake, state_wake. cbn.
      split; [done|]. intros _. split_and!; [done..|].
      intros t Ht. split; by eapply (no_call_not_blocked s).
    + split; [done|]. intros _. split_and!; [done..|].
      intros t Ht. exfalso.
      assert (t = TWorker) as -> by (by eapply (no_call_not_blocked s)).
      unfold no_waiter in Hno. rewrite !Hwt in Hno.
      apply andb_true_iff in Hno as [[_ Hno]%andb_true_iff _].
      by rewrite Ht in Hno.
  - repeat case_match; simplify_eq. done.
  - done.
Qed.

Lemma run_app ls1 ls2 s : run (ls1 ++ ls2) s = run ls1 s ≫= run ls2.
Proof.
  revert s. induction ls1 as [|l ls1 IH]; intros s; simpl; [done|].
  destruct (step l s); simpl; [apply IH|done].
Qed.

Lemma reachable_shutdown_after n : reachable 2 (shutdown_after n).
Proof.
  unfold shutdown_after.
  destruct (run (take n shutdown_schedule) (state_after 35)) as [s|] eqn:Hs; simpl.
  - exists (sample_schedule ++ take n shutdown_schedule). rewrite run_app.
    replace (run sample_schedule (init 2)) with (Some (state_after 35))
      by (vm_compute; reflexivity).
    done.
  - by exists [].
Qed.

Lemma destructor_assertion_holds_witness :
  failed (shutdown_after 2) = None ∧
  (dpc (shutdown_after 1) = DHold →
   state (shutdown_after 1) = Waiting ∧ state (shutdown_after 2) = ShouldExit ∧
   ∀ t, waiting (shutdown_after 1) t = true → t = TWorker ∧ TWorker = TWorker).
Proof.
  apply (destructor_assertion_holds 2 (shutdown_after 1) TWorker (shutdown_after 2)
           (reachable_shutdown_after 1)).
  - vm_compute. repeat (constructor; [by right|]). constructor.
  - vm_compute. reflexivity.
Defined.

Lemma all_returned_lookup s i :
  all_returned s → ipcs s !! i = Some IReturned ∨ ipcs s !! i = None.
Proof.
  intros Hall. destruct (ipcs s !! i) as [p|] eqn:Hp; [|by right].
  left. by rewrite (Forall_lookup_1 _ _ _ _ Hall Hp).
Qed.

Lemma all_returned_waiting s t :
  all_returned s → cpc s = CDone → waiting s t = true → t = TWorker ∧ wpc s = WBlocked.
Proof.
  intros Hall Hc. destruct t as [| |i|]; cbn; try done.
  - by rewrite Hc.
  - intros ?%bool_decide_eq_true. done.
  - by destruct (all_returned_lookup s i Hall) as [-> | ->].
Qed.

(** Once all calls have returned, every step of the destructor and of
    the worker brings the shutdown nearer. *)
Lemma shutdown_step l s s' :
  deliberate l = true → shutdown_ok s → step l s = Some s' →
  shutdown_ok s' ∧ (shutdown_measure s' < shutdown_measure s)%nat.
Proof.
  intros Hdel [Hf Hc Hall HM Hsh] Hstep.
  assert (failed s' = None → mutex_ok s') as HM' by (by eapply mutex_ok_step).
  destruct HM as [_ Hw Hd _].
  unfold step in Hstep. rewrite Hf in Hstep.
  destruct l as [[| |i|] pick|t]; [..|discriminate Hdel].
  - unfold step_ctor in Hstep. by rewrite Hc in Hstep.
  - unfold step_worker, acquire, resume in Hstep. unfold shutdown_shape in Hsh.
    repeat case_match; simplify_eq; cbn in *.
    all: try (apply notify_one_inv in Hstep as [[? ->]|[? ->]]).
    all: repeat match goal with Hx : decide _ = _ |- _ => clear Hx end.
    all: try (split; [split; [by auto..|]|]).
    all: unfold shutdown_shape, shutdown_measure; cbn; rw_known; cbn.
    all: try solve [intuition (try congruence; try lia; auto)].
  - unfold step_invoker in Hstep.
    by destruct (all_returned_lookup s i Hall) as [Hi | Hi]; rewrite Hi in Hstep.
  - unfold step_dtor, acquire in Hstep. unfold shutdown_shape in Hsh.
    destruct (dpc s) eqn:Hdpc.
    + repeat case_match; simplify_eq.
      split; [split; [by auto..|]|]; unfold shutdown_shape, shutdown_measure; cbn;
        rw_known; cbn; [done|lia].
    + assert (mutex s = Some TDtor) as Hm by (by apply Hd).
      assert (state s = Waiting ∧ wpc s = WBlocked) as [Hst Hwb].
      { destruct Hsh as [Hwi|[? [Hwc|?]]]; [| |done];
          (assert (mutex s = Some TWorker) by (apply Hw; by rw_known); congruence). }
      rewrite decide_True in Hstep by done.
      apply fmap_Some in Hstep as (s1 & Hn & ->).
      assert (∀ t, waiting (set_dpc DJoin (set_state ShouldExit s)) t = waiting s t) as Hwt
        by (by intros []).
      apply notify_one_inv in Hn as [[Hp ->]|[Hno ->]].
      * rewrite Hwt in Hp. apply all_returned_waiting in Hp as [-> _]; [|done..].
        split; [split; [by auto..|]|]; unfold shutdown_shape, shutdown_measure, wake; cbn;
          rw_known; cbn; [auto|lia].
      * exfalso. unfold no_waiter in Hno. rewrite !Hwt in Hno.
        apply andb_true_iff in Hno as [[_ Hno]%andb_true_iff _].
        cbn in Hno. by rewrite Hwb in Hno.
    + repeat case_match; simplify_eq.
      split; [split; [by auto..|]|]; unfold shutdown_shape, shutdown_measure; cbn;
        rw_known; cbn; [|lia]. intuition congruence.
    + done.
Qed.

Lemma shutdown_progress s :
  shutdown_ok s → dpc s = DDone ∨ ∃ l, deliberate l = true ∧ is_Some (step l s).
Proof.
  intros [Hf Hc Hall [Hmc Hw Hd Hi] Hsh]. unfold shutdown_shape in Hsh.
  destruct (decide (holds_worker (wpc s) = true ∧ wpc s ≠ WExited)) as [[Hh Hne]|Hnh].
  { right. exists (Run TWorker TWorker). split; [done|].
    assert (mutex s = Some TWorker) as Hm by (by apply Hw).
    unfold step, step_worker, resume, acquire. rewrite Hf.
    destruct (dpc s) eqn:Hdpc, (wpc s) eqn:Hwpc; try done;
      repeat (first [progress cbn | rewrite Hm | case_match]; try done); eauto;
      intuition congruence. }
  destruct (dpc s) eqn:Hdpc.
  - right. exists (Run TDtor TWorker). split; [done|].
    unfold step, step_dtor, acquire. rewrite Hf, Hdpc, decide_True by done.
    cbn. destruct (mutex s) as [t|] eqn:Hm; [exfalso|by eexists].
    destruct t as [| |i|].
    + destruct Hmc as [_ Hx]. specialize (Hx eq_refl). by rewrite Hc in Hx.
    + destruct Hw as [_ Hx]. specialize (Hx eq_refl).
      destruct Hsh as [Hy|[_ [Hy|Hy]]]; rewrite Hy in *; try done; by apply Hnh.
    + destruct (Hi i) as [_ Hx]. specialize (Hx eq_refl).
      by destruct (all_returned_lookup s i Hall) as [Hy|Hy]; rewrite Hy in Hx.
    + destruct Hd as [_ Hx]. by specialize (Hx eq_refl).
  - right. exists (Run TDtor TWorker). split; [done|].
    assert (mutex s = Some TDtor) as Hm by (by apply Hd).
    assert (state s = Waiting ∧ wpc s = WBlocked) as [Hst Hwb].
    { destruct Hsh as [Hwi|[? [Hwc|?]]]; [| |done];
        (assert (mutex s = Some TWorker) by (apply Hw; by rw_known); congruence). }
    unfold step, step_dtor, notify_one. rewrite Hf, Hdpc, decide_True by done.
    cbn. rewrite Hwb. cbn. eauto.
  - right. destruct Hsh as [Hst [Hx|[Hx|[Hx|Hx]]]].
    + exists (Run TWorker TWorker). split; [done|].
      unfold step, step_worker, acquire. rewrite Hf, Hx. cbn.
      destruct (mutex s) as [t|] eqn:Hm; [exfalso|by eexists].
      destruct t as [| |i|].
      * destruct Hmc as [_ Hy]. specialize (Hy eq_refl). by rewrite Hc in Hy.
      * destruct Hw as [_ Hy]. specialize (Hy eq_refl). by rewrite Hx in Hy.
      * destruct (Hi i) as [_ Hy]. specialize (Hy eq_refl).
        by destruct (all_returned_lookup s i Hall) as [Hz|Hz]; rewrite Hz in Hy.
      * destruct Hd as [_ Hy]. by specialize (Hy eq_refl).
    + destruct Hnh. by rewrite Hx.
    + destruct Hnh. by rewrite Hx.
    + exists (Run TDtor TWorker). split; [done|].
      unfold step, step_dtor. rewrite Hf, Hdpc, decide_True by done. eauto.
  - by left.
Qed.

Lemma shutdown_run ls s s' :
  shutdown_ok s → Forall (λ l, deliberate l = true) ls → run ls s = Some s' →
  shutdown_ok s' ∧ (length ls + shutdown_measure s' ≤ shutdown_measure s)%nat.
Proof.
  revert s. induction ls as [|l ls IH]; intros s HS Hq Hrun; simpl in Hrun.
  - simplify_eq. split; [done|]. simpl. lia.
  - destruct (step l s) as [s1|] eqn:Hs; [|done]. simpl in Hrun.
    apply Forall_cons in Hq as [Hl Hq].
    destruct (shutdown_step l s s1 Hl HS Hs) as [HS1 Hlt].
    destruct (IH s1 HS1 Hq Hrun) as [? Hm]. split; [done|]. simpl. lia.
Qed.

(** The state in which all calls have returned under a schedule without
    spurious wake-ups and without the destructor. *)
Lemma shutdown_start K ls s :
  Z.of_nat K < 2 ^ 64 → Forall (λ l, quiet l = true) ls → run ls (init K) = Some s →
  cpc s = CDone → all_returned s → shutdown_ok s ∧ dpc s = DIdle.
Proof.
  intros HK Hq Hrun Hc Hall.
  destruct (quiet_run_inv K ls (init K) s HK (safe_init K) (live_init K) Hq Hrun)
    as (HS & HL & _).
  destruct HL as [Lf Ld [Le1 Le2] Li Lu La Lb Lw Lc Lcw Lbusy].
  destruct (reachable_phase_ok K s) as [Pi Pe Ps]; [by exists ls|done|].
  pose proof HS as (HM & [Hfr Hst Hun] & [Hsub Hrun' Hgo Hwork] & _ & _).
  split; [|done]. split; [done..|].
  unfold shutdown_shape. rewrite Ld.
  assert (state s = WorkAvailable → wpc s = WIter) as Hwa.
  { intros Hx. destruct (decide (wpc s = WIter)) as [|Hn]; [done|].
    destruct (Ps Hx Hn) as [i Hi].
    by destruct (all_returned_lookup s i Hall) as [Hy|Hy]; rewrite Hy in Hi. }
  destruct (wpc s) eqn:Hwpc.
  - by destruct (Hst eq_refl).
  - by destruct (Hst eq_refl).
  - by destruct (Hst eq_refl).
  - by left.
  - right. split; [|auto]. destruct (state s) eqn:Hx; try done.
    + by destruct (Pi eq_refl).
    + by specialize (Hwa eq_refl).
  - right. split; [by apply Lb|auto].
  - specialize (Lw eq_refl). by specialize (Hwa Lw).
  - destruct (Hgo eq_refl) as [Hx|Hx]; [by specialize (Hwa Hx)|done].
  - destruct (Hrun' _ eq_refl) as [Hx _]. by specialize (Hwa Hx).
  - done.
Qed.

(** X17. The destructor shuts the worker down. Let all [K] calls have
    returned under a schedule without spurious wake-ups. Then, under
    every schedule of the destructor and the worker without spurious
    wake-ups, no assertion fails, at most 16 steps are taken, and as long
    as the join has not returned some thread can take a step; when it has
    returned the worker has exited on [ShouldExit]. *)
Theorem destructor_joins_worker (K : nat) (ls0 : list label) (s0 : Bridge) :
  Z.of_nat K < 2 ^ 64 →
  Forall (λ l, quiet l = true) ls0 → run ls0 (init K) = Some s0 →
  cpc s0 = CDone → all_returned s0 →
  ∀ ls s, Forall (λ l, deliberate l = true) ls → run ls s0 = Some s →
    failed s = None ∧ (length ls ≤ 16)%nat ∧
    ((dpc s = DDone ∧ wpc s = WExited ∧ state s = ShouldExit)
     ∨ ∃ l, deliberate l = true ∧ is_Some (step l s)).
Proof.
  intros HK Hq0 Hrun0 Hc Hall ls s Hq Hrun.
  destruct (shutdown_start K ls0 s0 HK Hq0 Hrun0 Hc Hall) as [HS0 Hd0].
  destruct (shutdown_run ls s0 s HS0 Hq Hrun) as [HS Hm].
  split_and!.
  - apply HS.
  - assert (shutdown_measure s0 ≤ 16)%nat; [|lia].
    unfold shutdown_measure. rewrite Hd0. cbn.
    destruct HS0 as [_ _ _ _ Hsh]. unfold shutdown_shape in Hsh. rewrite Hd0 in Hsh.
    destruct Hsh as [->|[_ [->| ->]]]; cbn; lia.
  - destruct (shutdown_progress s HS) as [Hd|?]; [left|by right].
    destruct HS as [_ _ _ _ Hsh]. unfold shutdown_shape in Hsh. rewrite Hd in Hsh.
    by destruct Hsh.
Qed.

Lemma destructor_joins_worker_witness :
  failed (shutdown_after 6) = None ∧ (length shutdown_schedule ≤ 16)%nat ∧
  ((dpc (shutdown_after 6) = DDone ∧ wpc (shutdown_after 6) = WExited
    ∧ state (shutdown_after 6) = ShouldExit)
   ∨ ∃ l, deliberate l = true ∧ is_Some (step l (shutdown_after 6))).
Proof.
  apply (destructor_joins_worker 2 sample_schedule (state_after 35)).
  - lia.
  - apply sample_schedule_quiet.
  - vm_compute. reflexivity.
  - vm_compute. reflexivity.
  - vm_compute. repeat constructor.
  - repeat constructor.
  - vm_compute. reflexivity.
Defined.

Lemma accepts_snoc q es e : accepts q (es ++ [e]) = accepts q es ≫= λ q', accept q' e.
Proof.
  revert q. induction es as [|x es IH]; intros q; simpl.
  - by destruct (accept q e).
  - destruct (accept q x); simpl; [apply IH|done].
Qed.

Lemma slot_of_notify_all s : slot_of (notify_all s) = slot_of s.
Proof. unfold slot_of, notify_all. cbn. by destruct (wpc s), (state s). Qed.

Lemma slot_of_wake t s : slot_of (wake t s) = slot_of s.
Proof.
  unfold slot_of, wake. destruct t as [| |i|]; cbn; try done.
  - by destruct (wpc s), (state s).
  - by destruct (ipcs s !! i).
Qed.

Lemma slot_step K l s s' :
  safe K s → step l s = Some s' → failed s' = None →
  accepts Vacant (events s) = Some (slot_of s) →
  accepts Vacant (events s') = Some (slot_of s').
Proof.
  intros ([Hc Hw Hd Hi] & HU & [Hsub Hrun Hgo Hwork] & _ & _) Hstep Hf IH.
  step_cases Hstep; try discriminate Hf.
  all: rewrite ?slot_of_notify_all, ?slot_of_wake, ?events_notify_all, ?events_wake.
  all: unfold slot_of in *; cbn in *; rw_known; cbn in *.
  all: rewrite ?accepts_snoc, ?IH; cbn.
  all: try done.
  - destruct HU as [_ Hst Hun].
    assert (wpc s = WUnborn) as Hwu by (apply Hun; auto).
    rewrite Hwu in *. by destruct (Hst eq_refl) as [_ ->].
  - destruct HU as [_ Hst _].
    match goal with Hx : wpc s = _ |- _ => rewrite Hx in Hst end.
    by destruct (Hst eq_refl) as [_ ->].
  - destruct HU as [_ Hst _].
    match goal with Hx : wpc s = _ |- _ => rewrite Hx in Hst end.
    by destruct (Hst eq_refl) as [_ ->].
  - by destruct (state s).
  - match goal with Hx : work s = Some _ |- _ => rewrite Hx end.
    cbn. by rewrite decide_True.
  - rewrite decide_True by done. by destruct (state s).
  - specialize (Hi i).
    match goal with Hx : ipcs s !! i = Some _ |- _ => rewrite Hx in Hi end.
    cbn in Hi. assert (mutex s = Some (TInvoker i)) as Hm by (by apply Hi).
    destruct (wpc s); try done; exfalso;
      (assert (mutex s = Some TWorker) by (by apply Hw); congruence).
Qed.

Lemma run_slot K ls s s' :
  safe K s → run ls s = Some s' → failed s' = None →
  accepts Vacant (events s) = Some (slot_of s) →
  accepts Vacant (events s') = Some (slot_of s').
Proof.
  revert s. induction ls as [|l ls IH]; intros s HS Hrun Hf Hacc; simpl in Hrun.
  - by simplify_eq.
  - destruct (step l s) as [s1|] eqn:Hs; [|done]. simpl in Hrun.
    assert (failed s1 = None) by (by eapply run_not_failed).
    eapply IH; [| |done|]; [by eapply safe_step|done|by eapply slot_step].
Qed.

(** X18. The events of every run, whatever the schedule, follow the
    protocol of the one work slot: work is stored only into a vacant slot,
    the work that is started is the one that was stored, the resume that
    fires is the one of the work that was started, and only then can work
    be stored again. So no stored work is overwritten or dropped before it
    has run and resumed, and nothing runs twice. While no assertion has
    failed the slot the events lead to is the one the fields show. *)
Theorem events_follow_slot_protocol (K : nat) (s : Bridge) :
  reachable K s →
  ∃ q, accepts Vacant (events s) = Some q ∧ (failed s = None → q = slot_of s).
Proof.
  intros Hr. destruct (reachable_unfailed K s Hr) as (s0 & [ls Hls] & Hf0 & Hev & Hip).
  assert (accepts Vacant (events s0) = Some (slot_of s0)) as Hacc.
  { eapply run_slot; [apply safe_init|done..]. }
  destruct (failed s) eqn:Hf.
  - exists (slot_of s0). by rewrite <- Hev.
  - exists (slot_of s). split; [|done]. destruct Hr as [ls' Hls'].
    eapply run_slot; [apply safe_init|done..].
Qed.

Lemma events_follow_slot_protocol_witness :
  ∃ q, accepts Vacant (events (state_after 35)) = Some q ∧
       (failed (state_after 35) = None → q = slot_of (state_after 35)).
Proof. apply (events_follow_slot_protocol 2 (state_after 35) (reachable_state_after 35)). Defined.

(** X19. Work is handed over only while the worker waits: when a call
    stands at the point where it stores its work, it owns the mutex, the
    state is [Waiting], the worker is inside the wait of [threadIter]
    (blocked, or woken and waiting for the mutex), and no other call
    stands at that point. *)
Theorem work_handed_over_to_waiting_worker (K : nat) (s : Bridge) (i : nat) :
  reachable K s → failed s = None → ipcs s !! i = Some ISubmit →
  mutex s = Some (TInvoker i) ∧ state s = Waiting ∧
  (wpc s = WBlocked ∨ wpc s = WWoken) ∧
  ∀ j, ipcs s !! j = Some ISubmit → j = i.
Proof.
  intros Hr Hf Hi.
  destruct (reachable_safe K s Hr Hf) as ([_ Hw _ Hinv] & HU & [Hsub _ _ _] & _).
  assert (mutex s = Some (TInvoker i)) as Hm by (apply Hinv; by rewrite Hi).
  assert (cpc s = CDone) as Hc by (by eapply startup_ok_started).
  destruct HU as [_ Hst _].
  split_and!; [done|by eapply Hsub| |].
  - destruct (wpc s) eqn:E; auto; exfalso;
      try (by destruct (Hst eq_refl));
      (assert (mutex s = Some TWorker) by (by apply Hw); congruence).
  - intros j Hj. assert (mutex s = Some (TInvoker j)) by (apply Hinv; by rewrite Hj).
    congruence.
Qed.

Lemma work_handed_over_to_waiting_worker_witness :
  mutex (state_after 11) = Some (TInvoker 0) ∧ state (state_after 11) = Waiting ∧
  (wpc (state_after 11) = WBlocked ∨ wpc (state_after 11) = WWoken) ∧
  ∀ j, ipcs (state_after 11) !! j = Some ISubmit → j = 0%nat.
Proof.
  apply (work_handed_over_to_waiting_worker 2 (state_after 11) 0 (reachable_state_after 11));
    reflexivity.
Defined.

(** X20. While no assertion has failed, [workCount] is the number of
    resume callbacks that have fired; that number, plus one while stored
    work has not resumed, is the number of calls that have stored their
    work, which is at most the number of calls. *)
Theorem workCount_counts_resumes (K : nat) (s : Bridge) :
  reachable K s → failed s = None →
  workCount s = Z.of_nat (count_resumes (events s)) ∧
  (count_resumes (events s) + (if in_flight (state s) (wpc s) then 1 else 0)
   = count_submitted (ipcs s))%nat ∧
  (count_submitted (ipcs s) ≤ K)%nat.
Proof.
  intros Hr Hf. destruct (reachable_safe K s Hr Hf) as (_ & _ & _ & _ & [Hlen _ Hc Ht]).
  split_and!; [done..|]. rewrite <- Hlen. apply count_submitted_le.
Qed.

Lemma workCount_counts_resumes_witness :
  workCount (state_after 19) = Z.of_nat (count_resumes (events (state_after 19))) ∧
  (count_resumes (events (state_after 19))
   + (if in_flight (state (state_after 19)) (wpc (state_after 19)) then 1 else 0)
   = count_submitted (ipcs (state_after 19)))%nat ∧
  (count_submitted (ipcs (state_after 19)) ≤ 2)%nat.
Proof.
  apply (workCount_counts_resumes 2 (state_after 19) (reachable_state_after 19)). reflexivity.
Defined.

(** X21. When the worker stands at the [notify_one] of [threadMain] it
    owns the mutex, the bridge is still [Uninitialized], the constructor
    has not returned, and the only thread that can be waiting on the
    condition, hence the only one the notification can reach, is the one
    that runs the constructor: no call of [invoke] has begun. *)
Theorem threadMain_notifies_constructor (K : nat) (s : Bridge) :
  reachable K s → failed s = None → wpc s = WNotify →
  mutex s = Some TWorker ∧ state s = Uninitialized ∧ cpc s ≠ CDone ∧
  ∀ t, waiting s t = true → t = TCtor.
Proof.
  intros Hr Hf Hw.
  destruct (reachable_safe K s Hr Hf) as ([_ Hmw _ _] & [Hfr Hst _] & _).
  destruct (Hst ltac:(by rewrite Hw)) as [Hc Hu]. destruct (Hfr Hc) as [Hall _].
  split_and!; [apply Hmw; by rewrite Hw|done|done|].
  intros t. destruct t as [| |i|]; cbn; try done.
  - by rewrite Hw.
  - destruct (ipcs s !! i) as [p|] eqn:Hp; [|done].
    by rewrite (Forall_lookup_1 _ _ _ _ Hall Hp).
Qed.

Lemma threadMain_notifies_constructor_witness :
  mutex (state_after 4) = Some TWorker ∧ state (state_after 4) = Uninitialized ∧
  cpc (state_after 4) ≠ CDone ∧
  ∀ t, waiting (state_after 4) t = true → t = TCtor.
Proof.
  apply (threadMain_notifies_constructor 2 (state_after 4) (reachable_state_after 4));
    reflexivity.
Defined.

Lemma count_event_snoc e es x :
  count_event e (es ++ [x]) = (count_event e es + if decide (x = e) then 1 else 0)%nat.
Proof.
  unfold count_event. rewrite filter_app, length_app. f_equal.
  rewrite filter_cons, filter_nil. by case_decide.
Qed.

(** What the slot protocol says about the number of times each work
    item was stored, started and resumed. *)
Lemma accepts_counts es q i :
  accepts Vacant es = Some q →
  (count_event (EStart i) es + (if decide (q = Stored i) then 1 else 0)
   = count_event (ESubmit i) es)%nat ∧
  (count_event (EResume i) es + (if decide (q = Started i) then 1 else 0)
   = count_event (EStart i) es)%nat.
Proof.
  revert q. induction es as [|e es IH] using rev_ind; intros q Hacc.
  - simpl in Hacc. simplify_eq. done.
  - rewrite accepts_snoc in Hacc. destruct (accepts Vacant es) as [q0|] eqn:Hq0; [|done].
    simpl in Hacc. destruct (IH q0 eq_refl) as [H1 H2].
    rewrite !count_event_snoc.
    destruct e, q0; simpl in Hacc; repeat case_decide; simplify_eq; try lia.
Qed.

Lemma lookup_wake_invoker_returned p : wake_invoker p = IReturned ↔ p = IReturned.
Proof. by destruct p. Qed.

Lemma once_ok_notify_all s : once_ok s → once_ok (notify_all s).
Proof.
  intros [Hs Hr]. split; intros i; rewrite events_notify_all, lookup_notify_all.
  - rewrite Hs. destruct (ipcs s !! i) as [p|]; cbn; [by rewrite submitted_wake|done].
  - rewrite Hr. destruct (ipcs s !! i) as [p|]; cbn; [|done].
    repeat case_decide; simplify_eq; try done; by destruct p.
Qed.

Lemma once_ok_wake t s : once_ok s → once_ok (wake t s).
Proof.
  intros [Hs Hr]. unfold wake. destruct t as [| |j|]; try done.
  destruct (ipcs s !! j) as [p|] eqn:Hj; [|done].
  split; intros i; cbn; rewrite ?Hs, ?Hr.
  - destruct (decide (i = j)) as [->|].
    + rewrite list_lookup_insert_eq by (by eapply lookup_lt_Some). rewrite Hj. cbn.
      by rewrite submitted_wake.
    + by rewrite list_lookup_insert_ne.
  - destruct (decide (i = j)) as [->|].
    + rewrite list_lookup_insert_eq by (by eapply lookup_lt_Some). rewrite Hj.
      repeat case_decide; simplify_eq; try done; by destruct p.
    + by rewrite list_lookup_insert_ne.
Qed.

Lemma once_ok_step l s s' :
  once_ok s → step l s = Some s' → failed s' = None → once_ok s'.
Proof.
  intros HO Hstep Hf. step_cases Hstep; try discriminate Hf.
  all: wake_frame once_ok_notify_all once_ok_wake.
  all: destruct HO as [Hs Hr].
  all: try (split; intros j; cbn; rewrite ?count_event_snoc, ?Hs, ?Hr;
            try match goal with
                | Hx : ipcs _ !! ?i = Some _ |- _ =>
                    destruct (decide (j = i)) as [->|];
                    [rewrite ?list_lookup_insert_eq by (by eapply lookup_lt_Some); rewrite ?Hx
                    |rewrite ?list_lookup_insert_ne by done]
                end;
            cbn; repeat case_decide; simplify_eq; try done; try lia).
Qed.

Lemma once_ok_init K : once_ok (init K).
Proof.
  split; intros i; cbn.
  - destruct (replicate K IStart !! i) as [p|] eqn:Hp; [|done].
    by apply lookup_replicate in Hp as [-> _].
  - case_decide as Hp; [|done]. by apply lookup_replicate in Hp as [? _].
Qed.

Lemma run_once_ok ls s s' :
  once_ok s → run ls s = Some s' → failed s' = None → once_ok s'.
Proof.
  revert s. induction ls as [|l ls IH]; intros s HO Hrun Hf; simpl in Hrun.
  - by simplify_eq.
  - destruct (step l s) as [s1|] eqn:Hs; [|done]. simpl in Hrun.
    assert (failed s1 = None) by (by eapply run_not_failed).
    eapply IH; [|done..]. by eapply once_ok_step.
Qed.

Lemma count_event_elem e es : e ∈ es → (0 < count_event e es)%nat.
Proof.
  intros He. unfold count_event.
  assert (e ∈ filter (λ x, x = e) es) as Hin by (by apply list_elem_of_filter).
  destruct (filter _ es); [by apply elem_of_nil in Hin|simpl; lia].
Qed.

(** X22. Under every schedule the work of each call is stored at most
    once, started at most as often as stored, resumed at most as often as
    started, and the call returns at most as often as its work resumed;
    for a call that has returned each of the four has happened exactly
    once: its work ran once, to completion, and never again. *)
Theorem each_work_runs_once (K : nat) (s : Bridge) (i : nat) :
  reachable K s →
  (count_event (EReturn i) (events s) ≤ count_event (EResume i) (events s)
   ≤ count_event (EStart i) (events s))%nat ∧
  (count_event (EStart i) (events s) ≤ count_event (ESubmit i) (events s) ≤ 1)%nat ∧
  (ipcs s !! i = Some IReturned →
   count_event (ESubmit i) (events s) = 1%nat ∧ count_event (EStart i) (events s) = 1%nat ∧
   count_event (EResume i) (events s) = 1%nat ∧ count_event (EReturn i) (events s) = 1%nat).
Proof.
  intros Hr. destruct (reachable_unfailed K s Hr) as (s0 & [ls Hls] & Hf0 & <- & <-).
  assert (safe K s0) as (_ & _ & _ & [_ _ Hret _] & _) by (by eapply reachable_safe; [exists ls|]).
  destruct (run_once_ok ls (init K) s0 (once_ok_init K) Hls Hf0) as [Hs Hre].
  assert (accepts Vacant (events s0) = Some (slot_of s0)) as Hacc.
  { eapply run_slot; [apply safe_init|done..]. }
  destruct (accepts_counts (events s0) (slot_of s0) i Hacc) as [H1 H2].
  specialize (Hs i). specialize (Hre i). specialize (Hret i).
  assert (ipcs s0 !! i = Some IReturned → (0 < count_event (EResume i) (events s0))%nat) as Hpos.
  { intros Hi. by apply count_event_elem, Hret. }
  destruct (decide (ipcs s0 !! i = Some IReturned)) as [Hi|Hi].
  - specialize (Hpos Hi). rewrite Hi in Hs. cbn in Hs.
    repeat case_decide; split_and!; try lia; intros _; lia.
  - destruct (from_option submitted false (ipcs s0 !! i));
      repeat case_decide; split_and!; try lia; done.
Qed.

Lemma each_work_runs_once_witness :
  (count_event (EReturn 1) (events (state_after 35))
   ≤ count_event (EResume 1) (events (state_after 35))
   ≤ count_event (EStart 1) (events (state_after 35)))%nat ∧
  (count_event (EStart 1) (events (state_after 35))
   ≤ count_event (ESubmit 1) (events (state_after 35)) ≤ 1)%nat ∧
  (ipcs (state_after 35) !! 1%nat = Some IReturned →
   count_event (ESubmit 1) (events (state_after 35)) = 1%nat ∧
   count_event (EStart 1) (events (state_after 35)) = 1%nat ∧
   count_event (EResume 1) (events (state_after 35)) = 1%nat ∧
   count_event (EReturn 1) (events (state_after 35)) = 1%nat).
Proof. apply (each_work_runs_once 2 (state_after 35) 1 (reachable_state_after 35)). Defined.

Lemma quiet_rest K s :
  safe K s → live_ok s →
  at_rest s ∨ ∃ l, quiet l = true ∧ is_Some (step l s).
Proof.
  intros HS HL. destruct (quiet_progress K s HS HL) as [Hall|?]; [|by right].
  destruct HS as ([Hc Hw Hd Hi] & HU & _). pose proof HU as [Hfr Hst Hun].
  destruct HL as [Lf Ld [Le1 Le2] Li Lu La Lb Lw Lc Lcw Lbusy].
  destruct (mutex s) as [t|] eqn:Hm.
  - right. destruct t as [| |i|].
    + exists (Run TCtor TCtor). split; [done|].
      destruct Hc as [_ Hc]. specialize (Hc eq_refl).
      destruct (cpc s) eqn:Hcp; try done; step_some.
    + destruct Hw as [_ Hw]. specialize (Hw eq_refl).
      destruct (wpc s) eqn:Hwp; try done.
      * destruct (decide (cpc s = CBlocked)) as [Hcb|Hcb].
        -- exists (Run TWorker TCtor). split; [done|]. unfold step, step_worker.
           rewrite Lf, Hwp. unfold notify_one, waiting. cbn.
           rewrite bool_decide_eq_true_2 by done. eauto.
        -- exists (Run TWorker TDtor). split; [done|]. unfold step, step_worker.
           rewrite Lf, Hwp. unfold notify_one. cbn.
           rewrite (no_waiter_startup s) by done. eauto.
      * exists (Run TWorker TCtor). split; [done|]. step_some.
      * exists (Run TWorker TCtor). split; [done|]. step_some.
      * exists (Run TWorker TCtor). split; [done|]. step_some.
      * exists (Run TWorker TCtor). split; [done|]. step_some.
    + destruct (Hi i) as [_ Hii]. specialize (Hii eq_refl). exfalso.
      destruct (ipcs s !! i) as [p|] eqn:Hp; [|done].
      by rewrite (Forall_lookup_1 _ _ _ _ Hall Hp) in Hii.
    + destruct Hd as [_ Hd]. specialize (Hd eq_refl). by rewrite Ld in Hd.
  - destruct (cpc s) eqn:Hcp.
    + right. exists (Run TCtor TCtor). split; [done|]. step_some.
    + not_owner Hc Hcp.
    + not_owner Hc Hcp.
    + right. destruct (Lc eq_refl) as [Hwp|Hwp].
      * exists (Run TWorker TCtor). split; [done|]. step_some.
      * not_owner Hw Hwp.
    + right. exists (Run TCtor TCtor). split; [done|]. step_some.
    + destruct (wpc s) eqn:Hwp.
      all: try (by destruct (Hst eq_refl)).
      all: try (not_owner Hw Hwp).
      * left. split_and!; auto.
      * right. exists (Run TWorker TCtor). split; [done|]. step_some.
Qed.

Lemma count_submitted_all_returned (l : list invoker_pc) :
  Forall (λ p, p = IReturned) l → count_submitted l = length l.
Proof.
  unfold count_submitted. induction 1 as [|p l -> _ IH]; [done|]. cbn. by rewrite IH.
Qed.

(** X23. Where a schedule without spurious wake-ups and without the
    destructor can go no further, the bridge is at rest: no assertion has
    failed, the constructor and all [K] calls have returned, the worker is
    blocked in the wait of [threadIter] with the state [Waiting], nobody
    owns the mutex, and [workCount] is [K]. *)
Theorem bridge_comes_to_rest (K : nat) (ls : list label) (s : Bridge) :
  Z.of_nat K < 2 ^ 64 →
  Forall (λ l, quiet l = true) ls → run ls (init K) = Some s →
  (∀ l, quiet l = true → step l s = None) →
  failed s = None ∧ at_rest s ∧ workCount s = Z.of_nat K.
Proof.
  intros HK Hq Hrun Hstuck.
  destruct (quiet_run_inv K ls (init K) s HK (safe_init K) (live_init K) Hq Hrun)
    as (HS & HL & _).
  destruct (quiet_rest K s HS HL) as [Hrest|(l & Hl & [s' Hs'])].
  2:{ rewrite (Hstuck l Hl) in Hs'. done. }
  split_and!; [apply HL|done|].
  destruct Hrest as (_ & Hall & Hw & Hst & _).
  destruct HS as (_ & _ & _ & _ & [Hlen _ Hc Ht]).
  rewrite Hc. f_equal. rewrite Hst, Hw in Ht. cbn in Ht.
  rewrite count_submitted_all_returned in Ht by done. lia.
Qed.

Lemma sample_at_rest l : quiet l = true → step l (state_after 35) = None.
Proof.
  destruct l as [[| |i|] pick|t]; intros Hq; try discriminate Hq.
  - vm_compute. reflexivity.
  - vm_compute. reflexivity.
  - destruct i as [|[|i]]; vm_compute; reflexivity.
Qed.

Lemma bridge_comes_to_rest_witness :
  failed (state_after 35) = None ∧ at_rest (state_after 35) ∧
  workCount (state_after 35) = Z.of_nat 2.
Proof.
  apply (bridge_comes_to_rest 2 sample_schedule (state_after 35)).
  - lia.
  - apply sample_schedule_quiet.
  - vm_compute. reflexivity.
  - apply sample_at_rest.
Defined.
